(** * Leaflet.SmoothMarkerBouncing: the trajectory and timing helpers

    A shallow embedding of [src/helpers.js] and the properties its
    specification states about it.

    Conventions of the embedding.
    - Pixel heights, lengths, loop counters and speed coefficients are
      JavaScript numbers holding integers; they are values of [Z].  Every
      integer the functions below compute on such inputs of ordinary size is
      far below 2^53, where double arithmetic on integers is exact.
    - Coordinates, and the quotients the code forms, are rationals ([Q]):
      the exact values, without the rounding of double arithmetic.
    - A JavaScript array is a list of slots; the slot [None] is a hole,
      which reads as [undefined].  In an array of numbers [None] also stands
      for a slot that holds [undefined] or [NaN].
    - A loop runs under a budget of iterations ([fuel]); a run whose budget
      is used up yields [OutOfFuel].  A call that yields [OutOfFuel] under every
      budget is a call that does not return.
    - An array of the runtime holds a maximum number of elements, and a push
      on a full array throws a [RangeError].  The helpers that push are given
      twice: without the maximum, and in [Bounded] with it; the two agree as
      long as the arrays fit. *)

From Stdlib Require Import ZArith QArith Qround Qabs Lia.
From stdpp Require Import gmap strings list pretty.

Open Scope Z_scope.

(** ** The JavaScript runtime the helpers rely on *)

Module Js.

Inductive error : Type := TypeError | RangeError.

(** What running a function under an iteration budget gives. *)
Inductive outcome (A : Type) : Type :=
| Done (a : A)
| Threw (e : error)
| OutOfFuel.
Arguments Done {A} a.
Arguments Threw {A} e.
Arguments OutOfFuel {A}.

(** A loop: [step] either continues with a new state or breaks with the
    result. *)
Fixpoint loop {St R : Type} (fuel : nat) (step : St → St + R) (s : St)
  : outcome R :=
  match fuel with
  | O => OutOfFuel
  | S fuel' =>
      match step s with
      | inl s' => loop fuel' step s'
      | inr r => Done r
      end
  end.

(** [while (test) body]: JavaScript tests may change the state
    ([i--], [--i]), so [test] returns the truth value together with the
    state after the test. *)
Definition while {St : Type} (fuel : nat) (test : St → bool * St)
    (body : St → St) (s : St) : outcome St :=
  loop fuel
    (λ s, let '(b, s1) := test s in if b then inl (body s1) else inr s1) s.

(** A number used as a condition is true unless it is zero. *)
Definition truthy (n : Z) : bool := negb (n =? 0).

(** [a[i]]: a hole, an index past the end and a negative index all read
    as [undefined]. *)
Definition array_get {A : Type} (a : list (option A)) (i : Z) : option A :=
  if i <? 0 then None else mjoin (a !! Z.to_nat i).

(** [a[i] = v]: an index inside the array overwrites the slot, an index at
    or past the end extends the array with holes up to it, and a negative
    index names an ordinary property and leaves the elements alone. *)
Definition array_set {A : Type} (a : list (option A)) (i : Z) (v : A)
  : list (option A) :=
  if i <? 0 then a
  else
    let n := Z.to_nat i in
    if (n <? length a)%nat then <[n := Some v]> a
    else a ++ replicate (n - length a) None ++ [Some v].

(** [a.push(v)] on an array that has room.  (No maximum length is set here:
    the functions of [Line], [Trajectory] and [Timing] are the helpers as
    they run while their arrays fit.  [Bounded] below has those that push
    with the maximum length of the runtime, where a push on a full array
    throws.) *)
Definition push {A : Type} (a : list (option A)) (v : option A)
  : list (option A) := a ++ [v].

(** [+] on numbers; [undefined] and [NaN] (both [None]) give [NaN]. *)
Definition add (a b : option Z) : option Z :=
  match a, b with
  | Some m, Some n => Some (m + n)
  | _, _ => None
  end.

(** [Math.round]: the nearest integer, a tie going up. *)
Definition Math_round (q : Q) : Z := Qfloor (q + (1 # 2)).

Definition Qltb (p q : Q) : bool :=
  Qnum p * Z.pos (Qden q) <? Qnum q * Z.pos (Qden p).

(** A number appended to a string: an integer (below 10^21 in size) is
    written as its decimal numeral, with a minus sign when negative. *)
Definition toString (n : Z) : string := pretty n.

End Js.

Import Js.

(** ** Line rasterizer *)

Module Line.

(** A point [[x, y]]. *)
Abbreviation point := (Q * Q)%type.

(** An angle in radians.  [Math.cos] and [Math.sin] are primitives of the
    runtime on doubles; an angle is taken together with the two numbers
    they return for it. *)
Record angle : Type := Angle { radians : Q; Math_cos : Q; Math_sin : Q }.

(** The variables of the loop of [calculateLine]. *)
Record walk : Type := Walk {
  wx : Q; wy : Q; werr : Q; wp : list (option point); wi : Z
}.

(** One pass through the body of [while (true)] (lines 86-100). *)
Definition lineStep (dx dy sx sy : Q) (length : Z) (w : walk)
  : walk + list (option point) :=
  let p := push (wp w) (Some (wx w, wy w)) in
  let i := wi w + 1 in
  if i =? length then inr p
  else
    let e2 := werr w in
    let '(err, x) :=
      if Qltb (- dx) e2 then (werr w - dy, wx w + sx)%Q
      else (werr w, wx w) in
    let '(err, y) :=
      if Qltb e2 dy then (err + dx, wy w + sy)%Q
      else (err, wy w) in
    inl (Walk x y err p i).

Definition calculateLine (fuel : nat) (x y : Q) (a : angle) (length : Z)
  : outcome (list (option point)) :=
  let xD := inject_Z (Math_round (x + Math_cos a * inject_Z (length * 2))) in
  let yD := inject_Z (Math_round (y + Math_sin a * inject_Z (length * 2))) in
  let dx := Qabs (xD - x) in
  let sx := if Qltb x xD then 1%Q else (- (1))%Q in
  let dy := Qabs (yD - y) in
  let sy := if Qltb y yD then 1%Q else (- (1))%Q in
  let err := ((if Qltb dy dx then dx else - dy) / 2)%Q in
  loop fuel (lineStep dx dy sx sy length) (Walk x y err [] 0).

End Line.

Import Line.

(** ** Trajectory builder *)

Module Trajectory.

(** [calculateIconMovePoints] (lines 115-125): [while (dH--)] fills the
    array from its last index down. *)
Definition calculateIconMovePoints (fuel : nat) (x y : Q) (bounceHeight : Z)
  : outcome (list (option point)) :=
  match
    while fuel
      (λ '(dH, p), (truthy dH, (dH - 1, p)))
      (λ '(dH, p), (dH, array_set p dH (x, (y - inject_Z dH)%Q)))
      (bounceHeight + 1, [])
  with
  | Done (_, p) => Done p
  | Threw e => Threw e
  | OutOfFuel => OutOfFuel
  end.

(** [calculateShadowMovePoints] (lines 139-151).  The angle is [None] for
    [null] (and [undefined], which [!= null] does not tell apart); every
    number, 0 included, is [Some]. *)
Definition calculateShadowMovePoints (fuel : nat) (x y : Q)
    (bounceHeight : Z) (a : option angle) : outcome (list (option point)) :=
  match a with
  | Some a => calculateLine fuel x y a (bounceHeight + 1)
  | None =>
      match
        while fuel
          (λ '(i, p), (i <=? bounceHeight, (i, p)))
          (λ '(i, p), (i + 1, array_set p i (x, y)))
          (0, [])
      with
      | Done (_, p) => Done p
      | Threw e => Threw e
      | OutOfFuel => OutOfFuel
      end
  end.

Section Transforms.

(** How the runtime writes a number that need not be an integer when it
    is appended to a string. *)
Variable Number_toString : Q → string.

(** The string built at lines 234-235. *)
Definition resizeTransform (x y : Q) (height dH : Z) : string :=
  " matrix3d(1,0,0,0,0,"
  +:+ Number_toString (inject_Z (height - dH) / inject_Z height)%Q
  +:+ ",0,0,0,0,1,0," +:+ Number_toString x +:+ ","
  +:+ Number_toString (y + inject_Z dH)%Q +:+ ",0,1) ".

(** [calculateIconResizeTransforms] (lines 226-239). *)
Definition calculateIconResizeTransforms (fuel : nat) (x y : Q)
    (height contractHeight : Z) : outcome (list (option string)) :=
  match
    while fuel
      (λ '(dH, t), (truthy dH, (dH - 1, t)))
      (λ '(dH, t), (dH, array_set t dH (resizeTransform x y height dH)))
      (contractHeight + 1, [])
  with
  | Done (_, t) => Done t
  | Threw e => Threw e
  | OutOfFuel => OutOfFuel
  end.

(** The string built at line 172 from [x] and [y - dY], and at line 209
    from [p[dY][0]] and [p[dY][1]]. *)
Definition moveTransform (x y : Q) : string :=
  " matrix3d(1,0,0,0,0,1,0,0,0,0,1,0," +:+ Number_toString x +:+ ","
  +:+ Number_toString y +:+ ",0,1) ".

(** [calculateIconMoveTransforms] (lines 164-176). *)
Definition calculateIconMoveTransforms (fuel : nat) (x y : Q)
    (bounceHeight : Z) : outcome (list (option string)) :=
  match
    while fuel
      (λ '(dY, t), (truthy dY, (dY - 1, t)))
      (λ '(dY, t), (dY, array_set t dY (moveTransform x (y - inject_Z dY)%Q)))
      (bounceHeight + 1, [])
  with
  | Done (_, t) => Done t
  | Threw e => Threw e
  | OutOfFuel => OutOfFuel
  end.

(** One pass of the loop at lines 206-210.  Reading [p[dY][0]] when
    [p[dY]] is [undefined] throws a [TypeError]. *)
Definition shadowTransformStep (p : list (option point))
    (st : Z * list (option string))
  : Z * list (option string) + (error + list (option string)) :=
  let '(dY, t) := st in
  if truthy dY then
    let dY := dY - 1 in
    match array_get p dY with
    | Some pt => inl (dY, array_set t dY (moveTransform pt.1 pt.2))
    | None => inr (inl TypeError)
    end
  else inr (inr t).

(** [calculateShadowMoveTransforms] (lines 191-213). *)
Definition calculateShadowMoveTransforms (fuel : nat) (x y : Q)
    (bounceHeight : Z) (a : option angle) : outcome (list (option string)) :=
  let dY := bounceHeight + 1 in
  match
    match a with
    | Some a => calculateLine fuel x y a (bounceHeight + 1)
    | None =>
        match
          while fuel
            (λ '(i, p), (i <=? bounceHeight, (i, p)))
            (λ '(i, p), (i + 1, array_set p i (x, y)))
            (0, [])
        with
        | Done (_, p) => Done p
        | Threw e => Threw e
        | OutOfFuel => OutOfFuel
        end
    end
  with
  | Done p =>
      match loop fuel (shadowTransformStep p) (dY, []) with
      | Done (inr t) => Done t
      | Done (inl e) => Threw e
      | Threw e => Threw e
      | OutOfFuel => OutOfFuel
      end
  | Threw e => Threw e
  | OutOfFuel => OutOfFuel
  end.

End Transforms.

End Trajectory.

Import Trajectory.

(** ** Timing engine *)

Module Timing.

(** A reference to an object of the heap. *)
Definition ref : Type := nat.

(** [marker._bouncingOptions] *)
Record BouncingOptions : Type := {
  bounceHeight : Z;
  bounceSpeed : Z;
  elastic : bool;
  contractHeight : Z;
  contractSpeed : Z
}.

(** [marker._bouncingMotion]: each field holds an array or is not set. *)
Record BouncingMotion : Type := {
  moveSteps : option ref;
  moveDelays : option ref;
  resizeSteps : option ref;
  resizeDelays : option ref
}.

(** A marker refers to its two objects. *)
Record Marker : Type := {
  _bouncingOptions : BouncingOptions;
  _bouncingMotion : ref
}.

(** The objects the helpers share with their callers.
    - [bouncingMotionsCache] is the module's cache object (line 19).  Its
      values are arrays, which are true as conditions, so [if (cache[key])]
      holds exactly when the key is present.  (Every key ends in the digits
      of a number, so none is a property inherited from [Object.prototype].)
    - [arrays] holds the arrays that have been stored in the cache and
      returned; the reference of an array is its index.  An array that a
      function is still filling is a local value.
    - [motions] and [markers] hold the marker objects. *)
Record state : Type := State {
  bouncingMotionsCache : gmap string ref;
  arrays : list (list (option Z));
  motions : gmap ref BouncingMotion;
  markers : gmap ref Marker
}.

(** Computations on the state. *)
Definition M (A : Type) : Type := state → outcome (A * state).

Definition ret {A : Type} (a : A) : M A := λ s, Done (a, s).

Definition bind {A B : Type} (m : M A) (k : A → M B) : M B :=
  λ s,
    match m s with
    | Done (a, s') => k a s'
    | Threw e => Threw e
    | OutOfFuel => OutOfFuel
    end.

(** A computation that leaves the state alone. *)
Definition pure {A : Type} (o : outcome A) : M A :=
  λ s,
    match o with
    | Done a => Done (a, s)
    | Threw e => Threw e
    | OutOfFuel => OutOfFuel
    end.

Notation "'let*' x := m 'in' k" := (bind m (λ x, k))
  (at level 10, x name, m at level 100, k at level 200, only parsing).
Notation "'let*' ' p := m 'in' k" := (bind m (λ x, match x with p => k end))
  (at level 10, p pattern, m at level 100, k at level 200, only parsing).

(** [bouncingMotionsCache[key]] *)
Definition cacheGet (key : string) : M (option ref) :=
  λ s, Done (bouncingMotionsCache s !! key, s).

(** [bouncingMotionsCache[key] = a], for an array [a] that has just been
    filled: it becomes an object of the heap. *)
Definition cachePut (key : string) (a : list (option Z)) : M ref :=
  λ s,
    let r := length (arrays s) in
    Done (r, State (<[key := r]> (bouncingMotionsCache s)) (arrays s ++ [a])
               (motions s) (markers s)).

(** [calculateSteps] (lines 252-278). *)
Definition calculateSteps (fuel : nat) (height : Z) (prefix : string) : M ref :=
  let key := prefix +:+ toString height in
  let* hit := cacheGet key in
  match hit with
  | Some r => ret r
  | None =>
      let* '(_, steps) :=
        pure (while fuel
                (λ '(i, steps), (i <=? height, (i, steps)))
                (λ '(i, steps), (i + 1, push steps (Some i)))
                (1, [])) in
      let* '(_, steps) :=
        pure (while fuel
                (λ '(i, steps), (truthy i, (i - 1, steps)))
                (λ '(i, steps), (i, push steps (Some i)))
                (height, steps)) in
      cachePut key steps
  end.

(** [calculateDelays] (lines 294-334).  A delay is [None] when it is [NaN]. *)
Definition calculateDelays (fuel : nat) (height speed : Z) (prefix : string)
  : M ref :=
  let key := prefix +:+ toString height +:+ "_" +:+ toString speed in
  let* hit := cacheGet key in
  match hit with
  | Some r => ret r
  | None =>
      let deltas := array_set [] height speed in
      let deltas := array_set deltas 0 0 in
      let* '(_, deltas) :=
        pure (while fuel
                (λ '(i, deltas), (truthy (i - 1), (i - 1, deltas)))
                (λ '(i, deltas),
                   (i, array_set deltas i
                         (Math_round (inject_Z speed / inject_Z (height - i)))))
                (height, deltas)) in
      let* '(_, deltas) :=
        pure (while fuel
                (λ '(i, deltas), (truthy i, (i - 1, deltas)))
                (λ '(i, deltas), (i, push deltas (array_get deltas i)))
                (height, deltas)) in
      let l := Z.of_nat (length deltas) in
      let* '(_, (_, delays)) :=
        pure (while fuel
                (λ '(i, (totalDelay, delays)),
                   (i <? l, (i, (totalDelay, delays))))
                (λ '(i, (totalDelay, delays)),
                   let totalDelay := add totalDelay (array_get deltas i) in
                   (i + 1, (totalDelay, push delays totalDelay)))
                (0, (Some 0, []))) in
      cachePut key delays
  end.

(** [marker._bouncingOptions]; a reference that is not a marker has no such
    property to destructure. *)
Definition getOptions (marker : ref) : M BouncingOptions :=
  λ s,
    match markers s !! marker with
    | Some m => Done (_bouncingOptions m, s)
    | None => Threw TypeError
    end.

(** [marker._bouncingMotion.field = v] *)
Definition setMotion (marker : ref) (set : BouncingMotion → BouncingMotion)
  : M unit :=
  λ s,
    match markers s !! marker with
    | Some m =>
        match motions s !! _bouncingMotion m with
        | Some bm =>
            Done (tt, State (bouncingMotionsCache s) (arrays s)
                        (<[_bouncingMotion m := set bm]> (motions s))
                        (markers s))
        | None => Threw TypeError
        end
    | None => Threw TypeError
    end.

(** [calculateTimeline] (lines 350-368). *)
Definition calculateTimeline (fuel : nat) (marker : ref) : M ref :=
  let* bouncingOptions := getOptions marker in
  let* r := calculateSteps fuel (bounceHeight bouncingOptions) "moveSteps_" in
  let* _ := setMotion marker
              (λ bm, Build_BouncingMotion (Some r) (moveDelays bm)
                       (resizeSteps bm) (resizeDelays bm)) in
  let* r := calculateDelays fuel (bounceHeight bouncingOptions)
              (bounceSpeed bouncingOptions) "moveDelays_" in
  let* _ := setMotion marker
              (λ bm, Build_BouncingMotion (moveSteps bm) (Some r)
                       (resizeSteps bm) (resizeDelays bm)) in
  if elastic bouncingOptions then
    let* r := calculateSteps fuel (contractHeight bouncingOptions)
                "resizeSteps_" in
    let* _ := setMotion marker
                (λ bm, Build_BouncingMotion (moveSteps bm) (moveDelays bm)
                         (Some r) (resizeDelays bm)) in
    let* r := calculateDelays fuel (contractHeight bouncingOptions)
                (contractSpeed bouncingOptions) "resizeDelays_" in
    let* _ := setMotion marker
                (λ bm, Build_BouncingMotion (moveSteps bm) (moveDelays bm)
                         (resizeSteps bm) (Some r)) in
    ret marker
  else ret marker.

End Timing.

Import Timing.

(** ** The helpers that push, in a runtime whose arrays are bounded *)

Module Bounded.

Section MaxLength.

(** The most elements an array holds: [2^32 - 1] by the definition of the
    language, less in an engine that gives up earlier. *)
Variable maxLength : nat.

(** [a.push(v)]: a [RangeError] (Invalid array length) when [a] is full. *)
Definition push {A : Type} (a : list (option A)) (v : option A)
  : error + list (option A) :=
  if (length a <? maxLength)%nat then inr (a ++ [v]) else inl RangeError.

(** [while (test) body] with a body that may throw. *)
Definition while {St : Type} (fuel : nat) (test : St → bool * St)
    (body : St → error + St) (s : St) : outcome St :=
  match
    loop fuel
      (λ s, let '(b, s1) := test s in
            if b then
              match body s1 with
              | inr s2 => inl s2
              | inl e => inr (inl e)
              end
            else inr (inr s1))
      s
  with
  | Done (inr s') => Done s'
  | Done (inl e) => Threw e
  | Threw e => Threw e
  | OutOfFuel => OutOfFuel
  end.

(** One pass through the body of [while (true)] of [calculateLine]
    (lines 86-100). *)
Definition lineStep (dx dy sx sy : Q) (length : Z) (w : walk)
  : walk + (error + list (option point)) :=
  match push (wp w) (Some (wx w, wy w)) with
  | inl e => inr (inl e)
  | inr p =>
      let i := wi w + 1 in
      if i =? length then inr (inr p)
      else
        let e2 := werr w in
        let '(err, x) :=
          if Qltb (- dx) e2 then (werr w - dy, wx w + sx)%Q
          else (werr w, wx w) in
        let '(err, y) :=
          if Qltb e2 dy then (err + dx, wy w + sy)%Q
          else (err, wy w) in
        inl (Walk x y err p i)
  end.

(** [calculateLine] (lines 68-103). *)
Definition calculateLine (fuel : nat) (x y : Q) (a : angle) (length : Z)
  : outcome (list (option point)) :=
  let xD := inject_Z (Math_round (x + Math_cos a * inject_Z (length * 2))) in
  let yD := inject_Z (Math_round (y + Math_sin a * inject_Z (length * 2))) in
  let dx := Qabs (xD - x) in
  let sx := if Qltb x xD then 1%Q else (- (1))%Q in
  let dy := Qabs (yD - y) in
  let sy := if Qltb y yD then 1%Q else (- (1))%Q in
  let err := ((if Qltb dy dx then dx else - dy) / 2)%Q in
  match loop fuel (lineStep dx dy sx sy length) (Walk x y err [] 0) with
  | Done (inr p) => Done p
  | Done (inl e) => Threw e
  | Threw e => Threw e
  | OutOfFuel => OutOfFuel
  end.

(** [calculateShadowMovePoints] (lines 139-151): the push is in
    [calculateLine]. *)
Definition calculateShadowMovePoints (fuel : nat) (x y : Q)
    (bounceHeight : Z) (a : option angle) : outcome (list (option point)) :=
  match a with
  | Some a => calculateLine fuel x y a (bounceHeight + 1)
  | None =>
      match
        Js.while fuel
          (λ '(i, p), (i <=? bounceHeight, (i, p)))
          (λ '(i, p), (i + 1, array_set p i (x, y)))
          (0, [])
      with
      | Done (_, p) => Done p
      | Threw e => Threw e
      | OutOfFuel => OutOfFuel
      end
  end.

(** [calculateShadowMoveTransforms] (lines 191-213), with the writing of
    numbers [Number_toString] of the runtime. *)
Definition calculateShadowMoveTransforms (Number_toString : Q → string)
    (fuel : nat) (x y : Q) (bounceHeight : Z) (a : option angle)
  : outcome (list (option string)) :=
  let dY := bounceHeight + 1 in
  match
    match a with
    | Some a => calculateLine fuel x y a (bounceHeight + 1)
    | None =>
        match
          Js.while fuel
            (λ '(i, p), (i <=? bounceHeight, (i, p)))
            (λ '(i, p), (i + 1, array_set p i (x, y)))
            (0, [])
        with
        | Done (_, p) => Done p
        | Threw e => Threw e
        | OutOfFuel => OutOfFuel
        end
    end
  with
  | Done p =>
      match loop fuel (shadowTransformStep Number_toString p) (dY, []) with
      | Done (inr t) => Done t
      | Done (inl e) => Threw e
      | Threw e => Threw e
      | OutOfFuel => OutOfFuel
      end
  | Threw e => Threw e
  | OutOfFuel => OutOfFuel
  end.

(** [calculateSteps] (lines 252-278). *)
Definition calculateSteps (fuel : nat) (height : Z) (prefix : string) : M ref :=
  let key := prefix +:+ toString height in
  let* hit := cacheGet key in
  match hit with
  | Some r => ret r
  | None =>
      let* '(_, steps) :=
        pure (while fuel
                (λ '(i, steps), (i <=? height, (i, steps)))
                (λ '(i, steps),
                   match push steps (Some i) with
                   | inr steps => inr (i + 1, steps)
                   | inl e => inl e
                   end)
                (1, [])) in
      let* '(_, steps) :=
        pure (while fuel
                (λ '(i, steps), (truthy i, (i - 1, steps)))
                (λ '(i, steps),
                   match push steps (Some i) with
                   | inr steps => inr (i, steps)
                   | inl e => inl e
                   end)
                (height, steps)) in
      cachePut key steps
  end.

(** [calculateDelays] (lines 294-334). *)
Definition calculateDelays (fuel : nat) (height speed : Z) (prefix : string)
  : M ref :=
  let key := prefix +:+ toString height +:+ "_" +:+ toString speed in
  let* hit := cacheGet key in
  match hit with
  | Some r => ret r
  | None =>
      let deltas := array_set [] height speed in
      let deltas := array_set deltas 0 0 in
      let* '(_, deltas) :=
        pure (Js.while fuel
                (λ '(i, deltas), (truthy (i - 1), (i - 1, deltas)))
                (λ '(i, deltas),
                   (i, array_set deltas i
                         (Math_round (inject_Z speed / inject_Z (height - i)))))
                (height, deltas)) in
      let* '(_, deltas) :=
        pure (while fuel
                (λ '(i, deltas), (truthy i, (i - 1, deltas)))
                (λ '(i, deltas),
                   match push deltas (array_get deltas i) with
                   | inr deltas => inr (i, deltas)
                   | inl e => inl e
                   end)
                (height, deltas)) in
      let l := Z.of_nat (length deltas) in
      let* '(_, (_, delays)) :=
        pure (while fuel
                (λ '(i, (totalDelay, delays)),
                   (i <? l, (i, (totalDelay, delays))))
                (λ '(i, (totalDelay, delays)),
                   let totalDelay := add totalDelay (array_get deltas i) in
                   match push delays totalDelay with
                   | inr delays => inr (i + 1, (totalDelay, delays))
                   | inl e => inl e
                   end)
                (0, (Some 0, []))) in
      cachePut key delays
  end.

(** [calculateTimeline] (lines 350-368). *)
Definition calculateTimeline (fuel : nat) (marker : ref) : M ref :=
  let* bouncingOptions := getOptions marker in
  let* r := calculateSteps fuel (bounceHeight bouncingOptions) "moveSteps_" in
  let* _ := setMotion marker
              (λ bm, Build_BouncingMotion (Some r) (moveDelays bm)
                       (resizeSteps bm) (resizeDelays bm)) in
  let* r := calculateDelays fuel (bounceHeight bouncingOptions)
              (bounceSpeed bouncingOptions) "moveDelays_" in
  let* _ := setMotion marker
              (λ bm, Build_BouncingMotion (moveSteps bm) (Some r)
                       (resizeSteps bm) (resizeDelays bm)) in
  if elastic bouncingOptions then
    let* r := calculateSteps fuel (contractHeight bouncingOptions)
                "resizeSteps_" in
    let* _ := setMotion marker
                (λ bm, Build_BouncingMotion (moveSteps bm) (moveDelays bm)
                         (Some r) (resizeDelays bm)) in
    let* r := calculateDelays fuel (contractHeight bouncingOptions)
                (contractSpeed bouncingOptions) "resizeDelays_" in
    let* _ := setMotion marker
                (λ bm, Build_BouncingMotion (moveSteps bm) (moveDelays bm)
                         (resizeSteps bm) (Some r)) in
    ret marker
  else ret marker.

End MaxLength.

End Bounded.

(** ** Style text *)

Module Css.

Import Stdlib.Strings.Ascii.

(** A text is the sequence of its characters.  (Characters are those of one
    byte; the functions below tell apart only letters, digits and a few
    marks of that range.) *)
Abbreviation text := (list Ascii.ascii).

Definition chars (s : string) : text := String.list_ascii_of_string s.

(** *** The regular expressions of the runtime that [regStyle] needs *)

Inductive regex : Type :=
| Chars (lit : text)
| Plus (class : Ascii.ascii → bool)
| Group (r : regex)
| Seq (r1 r2 : regex).

(** [\w]: a letter, a digit or the underscore. *)
Definition word (c : Ascii.ascii) : bool :=
  let n := Ascii.N_of_ascii c in
  ((48 <=? n) && (n <=? 57) || (65 <=? n) && (n <=? 90)
   || (97 <=? n) && (n <=? 122) || (n =? 95))%N.

(** [[\w-]] *)
Definition wordOrHyphen (c : Ascii.ascii) : bool :=
  word c || Ascii.eqb c "-"%char.

(** [[^;]] *)
Definition notSemicolon (c : Ascii.ascii) : bool := negb (Ascii.eqb c ";"%char).

(** [/([\w-]+): ([^;]+);/g] (line 4). *)
Definition regStyle : regex :=
  Seq (Group (Plus wordOrHyphen))
    (Seq (Chars (chars ": "))
       (Seq (Group (Plus notSemicolon)) (Chars (chars ";")))).

(** The characters of [lit] at the head of [s]. *)
Fixpoint strip (lit s : text) : option text :=
  match lit with
  | [] => Some s
  | c :: lit' =>
      match s with
      | d :: s' => if Ascii.eqb c d then strip lit' s' else None
      | [] => None
      end
  end.

(** Zero or more characters of a class, then [k]: the longest run is tried
    first, and a shorter one when what follows fails. *)
Fixpoint star {R : Type} (class : Ascii.ascii → bool) (s : text)
    (k : text → option R) : option R :=
  match s with
  | c :: s' =>
      if class c then
        match star class s' k with
        | Some r => Some r
        | None => k s
        end
      else k s
  | [] => k s
  end.

(** What of [s] was matched when [s'] is left. *)
Definition consumed (s s' : text) : text := take (length s - length s') s.

(** A match of [r] at the head of [s], then [k] on what is left and on the
    captures made so far (no group of [regStyle] is inside another). *)
Fixpoint matchAt {R : Type} (r : regex) (s : text) (caps : list text)
    (k : text → list text → option R) : option R :=
  match r with
  | Chars lit =>
      match strip lit s with
      | Some s' => k s' caps
      | None => None
      end
  | Plus class =>
      match s with
      | c :: s' => if class c then star class s' (λ s'', k s'' caps) else None
      | [] => None
      end
  | Group r' => matchAt r' s caps (λ s' caps', k s' (caps' ++ [consumed s s']))
  | Seq r1 r2 => matchAt r1 s caps (λ s' caps', matchAt r2 s' caps' k)
  end.

(** The leftmost match in [s]: the text from where it starts, its captures
    and what is left after it. *)
Fixpoint search (r : regex) (s : text) : option (text * list text * text) :=
  match matchAt r s [] (λ s' caps, Some (caps, s')) with
  | Some (caps, s') => Some (s, caps, s')
  | None =>
      match s with
      | _ :: s' => search r s'
      | [] => None
      end
  end.

(** [r.exec(s)] for a regular expression with the flag [g], whose
    [lastIndex] is given: the match array [[whole, group 1, ...]] or [null],
    and the new [lastIndex]. *)
Definition exec (r : regex) (s : text) (lastIndex : nat)
  : option (list text) * nat :=
  if (length s <? lastIndex)%nat then (None, 0%nat)
  else
    match search r (drop lastIndex s) with
    | Some (start, caps, rest) =>
        (Some (consumed start rest :: caps), (length s - length rest)%nat)
    | None => (None, 0%nat)
    end.

(** *** Objects with text values *)

(** The own properties of an object in the order [for ... in] visits them:
    the keys that are array indices in ascending order, then the other keys
    in the order they were created. *)
Abbreviation object := (list (text * text)).

Definition digit (c : Ascii.ascii) : option N :=
  let n := Ascii.N_of_ascii c in
  if ((48 <=? n) && (n <=? 57))%N then Some (n - 48)%N else None.

Fixpoint decimal (s : text) (acc : N) : option N :=
  match s with
  | [] => Some acc
  | c :: s' =>
      match digit c with
      | Some d => decimal s' (10 * acc + d)%N
      | None => None
      end
  end.

(** The index a key stands for: the key is the decimal numeral, without
    leading zeros, of an integer below 2^32 - 1. *)
Definition arrayIndex (key : text) : option N :=
  match key with
  | [] => None
  | _ =>
      match decimal key 0 with
      | Some n =>
          if (n <? 4294967295)%N && bool_decide (chars (pretty n) = key)
          then Some n else None
      | None => None
      end
  end.

Definition hasKey (o : object) (key : text) : bool :=
  bool_decide (key ∈ o.*1).

(** [o[key]] for a key of [o]. *)
Fixpoint getProperty (o : object) (key : text) : option text :=
  match o with
  | [] => None
  | (k, v) :: o' =>
      if bool_decide (k = key) then Some v else getProperty o' key
  end.

Fixpoint replaceValue (o : object) (key value : text) : object :=
  match o with
  | [] => []
  | (k, v) :: o' =>
      if bool_decide (k = key) then (k, value) :: o'
      else (k, v) :: replaceValue o' key value
  end.

Fixpoint insertIndex (o : object) (n : N) (key value : text) : object :=
  match o with
  | [] => [(key, value)]
  | (k, v) :: o' =>
      match arrayIndex k with
      | Some m =>
          if (m <? n)%N then (k, v) :: insertIndex o' n key value
          else (key, value) :: o
      | None => (key, value) :: o
      end
  end.

(** [o[key] = value] on an object that inherits from [Object.prototype]:
    the key [__proto__] is an accessor there, which ignores a text; a key of
    [o] keeps its place and takes the value; a new key is put in its place
    of the order. *)
Definition setProperty (o : object) (key value : text) : object :=
  if bool_decide (key = chars "__proto__") then o
  else if hasKey o key then replaceValue o key value
  else
    match arrayIndex key with
    | Some n => insertIndex o n key value
    | None => o ++ [(key, value)]
    end.

(** *** The two functions *)

(** [match[i]], read from a match array only: the loop tests [match] before
    each pass, and an entry the array lacks reads as [undefined]. *)
Definition matchGroup (m : option (list text)) (i : nat) : text :=
  default (chars "undefined") (m ≫= (.!! i)).

(** The test [while (match)] of [parseCssText]: a match array is true, [null]
    is false. *)
Definition parseTest (st : object * option (list text) * nat)
  : bool * (object * option (list text) * nat) :=
  let '(styleDefinitions, m, lastIndex) := st in
  (bool_decide (is_Some m), (styleDefinitions, m, lastIndex)).

(** The body of the loop (lines 31-32). *)
Definition parseBody (cssText : text)
    (st : object * option (list text) * nat)
  : object * option (list text) * nat :=
  let '(styleDefinitions, m, lastIndex) := st in
  let styleDefinitions :=
    setProperty styleDefinitions (matchGroup m 1) (matchGroup m 2) in
  let '(m, lastIndex) := exec regStyle cssText lastIndex in
  (styleDefinitions, m, lastIndex).

(** [parseCssText] (lines 26-36).  [regStyle] keeps its [lastIndex] from
    one call of [exec] to the next, and from one call of [parseCssText] to
    the next: it is given, and returned with the object. *)
Definition parseCssText (fuel : nat) (cssText : text) (lastIndex : nat)
  : outcome (object * nat) :=
  let styleDefinitions : object := [] in
  let '(m, lastIndex) := exec regStyle cssText lastIndex in
  match
    while fuel parseTest (parseBody cssText) (styleDefinitions, m, lastIndex)
  with
  | Done (styleDefinitions, _, lastIndex) => Done (styleDefinitions, lastIndex)
  | Threw e => Threw e
  | OutOfFuel => OutOfFuel
  end.

(** [renderCssText] (lines 44-53). *)
Definition renderCssText (styleDefinitions : object) : text :=
  foldl
    (λ cssText key,
       cssText
       ++ (key ++ chars ": "
           ++ default (chars "undefined") (getProperty styleDefinitions key)
           ++ chars "; "))
    [] styleDefinitions.*1.

End Css.

(** ** What the specification says, in its own words *)

Module Spec.

(** "[1, 2, ..., height] followed by [height-1, ..., 1, 0]" *)
Definition stepSequence (height : Z) : list Z :=
  seqZ 1 height ++ reverse (seqZ 0 height).

(** "delta[height] = speed; delta[0] = 0; for 0 < i < height,
    delta[i] = round(speed / (height - i))" *)
Definition delta (height speed i : Z) : Z :=
  if i =? height then speed
  else if i =? 0 then 0
  else Math_round (inject_Z speed / inject_Z (height - i)).

(** The outbound deltas, [delta[0]] to [delta[height]], and after them the
    return leg: "delta[height - 1 - k]" for k = 0, 1, ..., the outbound
    deltas below the peak in reverse order. *)
Definition deltaSequence (height speed : Z) : list Z :=
  (delta height speed <$> seqZ 0 (height + 1))
  ++ (delta height speed <$> reverse (seqZ 0 height)).

(** "entry i is the sum of per-step deltas for steps 0..i" *)
Fixpoint cumulativeSums (total : Z) (deltas : list Z) : list Z :=
  match deltas with
  | [] => []
  | d :: deltas' => (total + d) :: cumulativeSums (total + d) deltas'
  end.

End Spec.

Import Spec.

(** ** Vocabulary of the statements *)

(** A call that uses up every budget: it does not return. *)
Definition never_returns {A : Type} (run : nat → outcome A) : Prop :=
  ∀ fuel, run fuel = OutOfFuel.

(** The array a call returned, read from the heap it left. *)
Definition returned (o : outcome (ref * state)) : option (list (option Z)) :=
  match o with
  | Done (r, s) => arrays s !! r
  | _ => None
  end.

(** Every reference of the cache is an array of the heap. *)
Definition cache_wf (s : state) : Prop :=
  ∀ key r, bouncingMotionsCache s !! key = Some r → (r < length (arrays s))%nat.

(** The state of a page that has just loaded the module, with no marker. *)
Definition freshState : state := State ∅ [] ∅ ∅.

(** The angle 0: [Math.cos(0)] is 1 and [Math.sin(0)] is 0. *)
Definition zeroAngle : angle := Angle 0 1 0.

(** The keys under which the two cached functions store their results. *)
Definition stepsKey (height : Z) (prefix : string) : string :=
  prefix +:+ toString height.

Definition delaysKey (height speed : Z) (prefix : string) : string :=
  prefix +:+ toString height +:+ "_" +:+ toString speed.

(** The text of a transform that scales the y axis by [scaleY] and moves to
    [(tx, ty)], the three numbers already written out. *)
Definition matrix3d (scaleY tx ty : string) : string :=
  " matrix3d(1,0,0,0,0," +:+ scaleY +:+ ",0,0,0,0,1,0," +:+ tx +:+ ","
  +:+ ty +:+ ",0,1) ".

(** The transforms that move to the points of [p], one for one, and scale
    by 1. *)
Definition renderPoints (Number_toString : Q → string)
    (p : list (option point)) : list (option string) :=
  (λ slot : option point,
     (λ pt : point,
        matrix3d "1" (Number_toString pt.1) (Number_toString pt.2)) <$> slot)
  <$> p.

(** A text that [([\w-]+)] matches whole: letters, digits, underscores and
    hyphens, at least one. *)
Definition keyText (k : Css.text) : Prop :=
  k ≠ [] ∧ Forall (λ c, Css.wordOrHyphen c = true) k.

(** A text that [([^;]+)] matches whole: at least one character, none of
    them a semicolon. *)
Definition valueText (v : Css.text) : Prop :=
  v ≠ [] ∧ Forall (λ c, Css.notSemicolon c = true) v.

(** An object as [parseCssText] builds them: every key a [keyText] other
    than [__proto__], every value a [valueText], no key twice. *)
Definition styleObject (o : Css.object) : Prop :=
  Forall (λ p, keyText p.1 ∧ valueText p.2) o
  ∧ NoDup o.*1
  ∧ Css.chars "__proto__" ∉ o.*1.

(** The declaration [renderCssText] writes for a property. *)
Definition declaration (p : Css.text * Css.text) : Css.text :=
  p.1 ++ Css.chars ": " ++ p.2 ++ Css.chars "; ".

(** The points of [q] follow [prev] one unit step at a time: from a point
    to the next, x stays or moves by [sx] and y stays or moves by [sy]. *)
Fixpoint stepwise (sx sy : Q) (prev : point) (q : list (option point)) : Prop :=
  match q with
  | [] => True
  | Some pt :: q' =>
      (pt.1 = prev.1 ∨ pt.1 = (prev.1 + sx)%Q)
      ∧ (pt.2 = prev.2 ∨ pt.2 = (prev.2 + sy)%Q)
      ∧ stepwise sx sy pt q'
  | None :: _ => False
  end.

(** From [s] to [s'] the heap has only gained arrays and the cache has
    only gained entries: every array of [s] is in [s'] under the same
    reference with the same contents, and every key of [s] still refers to
    the same array. *)
Definition grows (s s' : state) : Prop :=
  arrays s `prefix_of` arrays s'
  ∧ bouncingMotionsCache s ⊆ bouncingMotionsCache s'.

(** What [calculateTimeline] has written to [marker._bouncingMotion], given
    the options [o] of the marker, the cache the call left and the fields
    before and after the call. *)
Definition timeline_written (o : BouncingOptions) (cache : gmap string ref)
    (before after : BouncingMotion) : Prop :=
  moveSteps after = cache !! stepsKey (bounceHeight o) "moveSteps_"
  ∧ is_Some (moveSteps after)
  ∧ moveDelays after
    = cache !! delaysKey (bounceHeight o) (bounceSpeed o) "moveDelays_"
  ∧ is_Some (moveDelays after)
  ∧ if elastic o then
      resizeSteps after = cache !! stepsKey (contractHeight o) "resizeSteps_"
      ∧ is_Some (resizeSteps after)
      ∧ resizeDelays after
        = cache !! delaysKey (contractHeight o) (contractSpeed o)
                     "resizeDelays_"
      ∧ is_Some (resizeDelays after)
    else
      resizeSteps after = resizeSteps before
      ∧ resizeDelays after = resizeDelays before.

(** A page with one marker, whose options are the defaults of the plugin,
    and nothing cached yet. *)
Definition oneMarkerState : state :=
  State ∅ []
    {[ 1%nat := Build_BouncingMotion None None None None ]}
    {[ 0%nat := Build_Marker (Build_BouncingOptions 15 52 true 12 52) 1%nat ]}.

(** What a loop that counts [i] down from [n] to 0 does to the rest of its
    state when one pass at index [i] applies [f i]. *)
Fixpoint descend {A : Type} (f : Z → A → A) (n : nat) (a : A) : A :=
  match n with
  | O => a
  | S k => descend f k (f (Z.of_nat k) a)
  end.

(** The same for a loop that counts [i] up through [n] values. *)
Fixpoint ascend {A : Type} (f : Z → A → A) (i : Z) (n : nat) (a : A) : A :=
  match n with
  | O => a
  | S k => ascend f (i + 1) k (f i a)
  end.

(** * Properties *)

(** ** Loops *)

Section Loops.

Context {St R : Type}.

Lemma loop_diverges (Inv : St → Prop) (step : St → St + R) :
  (∀ s, Inv s → ∃ s', step s = inl s' ∧ Inv s') →
  ∀ fuel s, Inv s → loop fuel step s = OutOfFuel.
Proof.
  intros Hstep fuel. induction fuel as [|fuel IH]; intros s Hs; [done|].
  destruct (Hstep s Hs) as (s' & Hs' & Hinv). simpl. rewrite Hs'. by apply IH.
Qed.

Lemma loop_fuel_mono (step : St → St + R) (fuel fuel' : nat) (s : St) (r : R) :
  (fuel ≤ fuel')%nat → loop fuel step s = Done r → loop fuel' step s = Done r.
Proof.
  revert fuel' s. induction fuel as [|fuel IH]; intros fuel' s Hle; [done|].
  destruct fuel' as [|fuel']; [lia|]. simpl.
  destruct (step s) as [s'|r']; [|done]. apply IH. lia.
Qed.

End Loops.

Section Counting.

Context {A : Type}.

Lemma while_countdown_nat (f : Z → A → A) (n : nat) :
  ∀ (a : A) (fuel : nat), (n < fuel)%nat →
    while fuel (λ '(i, a), (truthy i, (i - 1, a))) (λ '(i, a), (i, f i a))
      (Z.of_nat n, a)
    = Done (-1, descend f n a).
Proof.
  induction n as [|n IH]; intros a fuel Hfuel.
  - destruct fuel as [|fuel]; [lia|]. reflexivity.
  - destruct fuel as [|fuel]; [lia|].
    unfold while in *. cbn [loop].
    replace (truthy (Z.of_nat (S n))) with true
      by (unfold truthy; symmetry; apply negb_true_iff, Z.eqb_neq; lia).
    replace (Z.of_nat (S n) - 1) with (Z.of_nat n) by lia.
    cbn [descend]. apply IH. lia.
Qed.

Lemma while_countdown_negative (f : Z → A → A) (i : Z) (a : A) :
  i < 0 →
  never_returns (λ fuel,
    while fuel (λ '(i, a), (truthy i, (i - 1, a))) (λ '(i, a), (i, f i a))
      (i, a)).
Proof.
  intros Hi fuel. unfold while.
  apply (loop_diverges (λ s : Z * A, s.1 < 0)); [|done].
  intros [j b] Hj. simpl in Hj.
  replace (truthy j) with true
    by (unfold truthy; symmetry; apply negb_true_iff, Z.eqb_neq; lia).
  eexists. split; [reflexivity|]. simpl. lia.
Qed.

(** [while (--i)] from [i = n + 1]: passes at [n], ..., 1. *)
Lemma while_predecrement_nat (g : Z → A → A) (n : nat) :
  ∀ (a : A) (fuel : nat), (n < fuel)%nat →
    while fuel (λ '(i, a), (truthy (i - 1), (i - 1, a)))
      (λ '(i, a), (i, g i a)) (Z.of_nat (S n), a)
    = Done (0, descend (λ k, g (k + 1)) n a).
Proof.
  induction n as [|n IH]; intros a fuel Hfuel.
  - destruct fuel as [|fuel]; [lia|]. reflexivity.
  - destruct fuel as [|fuel]; [lia|].
    unfold while in *. cbn [loop].
    replace (truthy (Z.of_nat (S (S n)) - 1)) with true
      by (unfold truthy; symmetry; apply negb_true_iff, Z.eqb_neq; lia).
    replace (Z.of_nat (S (S n)) - 1) with (Z.of_nat (S n)) by lia.
    cbn [descend]. replace (Z.of_nat n + 1) with (Z.of_nat (S n)) by lia.
    apply IH. lia.
Qed.

Lemma while_countdown (f : Z → A → A) (i : Z) (a : A) (fuel : nat) :
  0 ≤ i → (Z.to_nat i < fuel)%nat →
  while fuel (λ '(i, a), (truthy i, (i - 1, a))) (λ '(i, a), (i, f i a)) (i, a)
  = Done (-1, descend f (Z.to_nat i) a).
Proof.
  intros Hi Hfuel. rewrite <- (Z2Nat.id i) at 1 by done.
  by apply while_countdown_nat.
Qed.

Lemma while_predecrement (g : Z → A → A) (i : Z) (a : A) (fuel : nat) :
  1 ≤ i → (Z.to_nat i ≤ fuel)%nat →
  while fuel (λ '(i, a), (truthy (i - 1), (i - 1, a)))
    (λ '(i, a), (i, g i a)) (i, a)
  = Done (0, descend (λ k, g (k + 1)) (Z.to_nat i - 1) a).
Proof.
  intros Hi Hfuel.
  replace i with (Z.of_nat (S (Z.to_nat i - 1))) at 1 by lia.
  apply while_predecrement_nat. lia.
Qed.

Lemma while_predecrement_nonpositive (g : Z → A → A) (i : Z) (a : A) :
  i ≤ 0 →
  never_returns (λ fuel,
    while fuel (λ '(i, a), (truthy (i - 1), (i - 1, a)))
      (λ '(i, a), (i, g i a)) (i, a)).
Proof.
  intros Hi fuel. unfold while.
  apply (loop_diverges (λ s : Z * A, s.1 ≤ 0)); [|done].
  intros [j b] Hj. simpl in Hj.
  replace (truthy (j - 1)) with true
    by (unfold truthy; symmetry; apply negb_true_iff, Z.eqb_neq; lia).
  eexists. split; [reflexivity|]. simpl. lia.
Qed.

Lemma while_countup (c : Z → bool) (f : Z → A → A) (n : nat) :
  ∀ (i : Z) (a : A) (fuel : nat),
    (∀ k, 0 ≤ k < Z.of_nat n → c (i + k) = true) →
    c (i + Z.of_nat n) = false →
    (n < fuel)%nat →
    while fuel (λ '(i, a), (c i, (i, a))) (λ '(i, a), (i + 1, f i a)) (i, a)
    = Done (i + Z.of_nat n, ascend f i n a).
Proof.
  induction n as [|n IH]; intros i a fuel Htrue Hfalse Hfuel.
  - destruct fuel as [|fuel]; [lia|].
    unfold while. cbn [loop]. replace (i + Z.of_nat 0) with i in * by lia.
    by rewrite Hfalse.
  - destruct fuel as [|fuel]; [lia|].
    unfold while in *. cbn [loop].
    replace (c i) with true
      by (symmetry; replace i with (i + 0) by lia; apply Htrue; lia).
    cbn [ascend]. replace (i + Z.of_nat (S n)) with (i + 1 + Z.of_nat n) by lia.
    apply IH; [|by replace (i + 1 + Z.of_nat n) with (i + Z.of_nat (S n)) by lia|lia].
    intros k Hk. replace (i + 1 + k) with (i + (k + 1)) by lia. apply Htrue. lia.
Qed.

End Counting.

Lemma while_ext {St : Type} (test test' : St → bool * St) (body body' : St → St) :
  (∀ s, test s = test' s) → (∀ s, body s = body' s) →
  ∀ fuel s, while fuel test body s = while fuel test' body' s.
Proof.
  intros Htest Hbody fuel. unfold while.
  induction fuel as [|fuel IH]; intros s; [done|].
  cbn [loop]. rewrite <- Htest. destruct (test s) as [[] s1]; [|done].
  rewrite <- Hbody. apply IH.
Qed.

(** Loops with a body that may throw. *)

Section BoundedLoops.

Context {St : Type}.

(** As long as the body does not throw, the loop is the loop without the
    check. *)
Lemma bounded_while_agrees (test : St → bool * St) (body : St → St)
    (bodyT : St → error + St) (Inv : St → Prop) :
  (∀ s s1, Inv s → test s = (true, s1) →
     bodyT s1 = inr (body s1) ∧ Inv (body s1)) →
  ∀ fuel s, Inv s → Bounded.while fuel test bodyT s = while fuel test body s.
Proof.
  intros Hstep fuel. unfold Bounded.while, while.
  induction fuel as [|fuel IH]; intros s Hs; [done|].
  cbn [loop]. destruct (test s) as [[] s1] eqn:Htest; [|done].
  destruct (Hstep s s1 Hs Htest) as [-> Hinv]. by apply IH.
Qed.

(** A loop that returns has seen its test fail, in a state that satisfies
    what every pass keeps. *)
Lemma while_exit (test : St → bool * St) (body : St → St) (Inv : St → Prop) :
  (∀ s s1, Inv s → test s = (true, s1) → Inv (body s1)) →
  ∀ fuel s s', Inv s → while fuel test body s = Done s' →
    ∃ s0, Inv s0 ∧ test s0 = (false, s').
Proof.
  intros Hstep fuel. unfold while.
  induction fuel as [|fuel IH]; intros s s' Hs; [done|].
  cbn [loop]. destruct (test s) as [[] s1] eqn:Htest.
  - apply IH. by eapply Hstep.
  - intros [= <-]. eauto.
Qed.

End BoundedLoops.

Lemma truthy_true (n : Z) : truthy n = true ↔ n ≠ 0.
Proof. unfold truthy. rewrite negb_true_iff. apply Z.eqb_neq. Qed.

(** A countdown from below 0 that pushes on every pass fills the array: the
    push on the full array throws. *)
Lemma bounded_countdown_fills {A : Type} (maxLength : nat) (v : Z → option A)
    (fuel : nat) :
  ∀ (i : Z) (a : list (option A)),
    i < 0 →
    Bounded.while fuel
      (λ '(i, a), (truthy i, (i - 1, a)))
      (λ '(i, a),
         match Bounded.push maxLength a (v i) with
         | inr a => inr (i, a)
         | inl e => inl e
         end)
      (i, a)
    = if (maxLength - length a <? fuel)%nat then Threw RangeError
      else OutOfFuel.
Proof.
  unfold Bounded.while.
  induction fuel as [|fuel IH]; intros i a Hi; [done|].
  cbn [loop].
  replace (truthy i) with true by (symmetry; apply truthy_true; lia).
  unfold Bounded.push at 1.
  destruct (decide (length a < maxLength)%nat) as [Hroom|Hfull].
  - replace (length a <? maxLength)%nat with true
      by (symmetry; by apply Nat.ltb_lt).
    rewrite IH by lia. rewrite length_app. simpl length.
    by replace (maxLength - length a)%nat
      with (S (maxLength - (length a + 1)))%nat by lia.
  - replace (length a <? maxLength)%nat with false
      by (symmetry; apply Nat.ltb_ge; lia).
    by replace (maxLength - length a)%nat with 0%nat by lia.
Qed.

(** ** Arrays *)

Section Arrays.

Context {A : Type}.
Implicit Types (a : list (option A)) (v : A).

Lemma array_set_inside a (i : nat) v :
  (i < length a)%nat → array_set a (Z.of_nat i) v = <[i := Some v]> a.
Proof.
  intros Hi. unfold array_set.
  replace (Z.of_nat i <? 0) with false by (symmetry; apply Z.ltb_ge; lia).
  rewrite Nat2Z.id.
  by replace (i <? length a)%nat with true by (symmetry; by apply Nat.ltb_lt).
Qed.

Lemma array_set_outside a (i : nat) v :
  (length a ≤ i)%nat →
  array_set a (Z.of_nat i) v = a ++ replicate (i - length a) None ++ [Some v].
Proof.
  intros Hi. unfold array_set.
  replace (Z.of_nat i <? 0) with false by (symmetry; apply Z.ltb_ge; lia).
  rewrite Nat2Z.id.
  by replace (i <? length a)%nat with false by (symmetry; by apply Nat.ltb_ge).
Qed.

Lemma array_set_end a v :
  array_set a (Z.of_nat (length a)) v = a ++ [Some v].
Proof. rewrite array_set_outside by lia. by rewrite Nat.sub_diag. Qed.

Lemma array_get_lookup a (i : nat) :
  array_get a (Z.of_nat i) = mjoin (a !! i).
Proof.
  unfold array_get.
  replace (Z.of_nat i <? 0) with false by (symmetry; apply Z.ltb_ge; lia).
  by rewrite Nat2Z.id.
Qed.

Lemma array_set_length a (i : Z) v :
  i < Z.of_nat (length a) → length (array_set a i v) = length a.
Proof.
  intros Hi. unfold array_set. destruct (i <? 0) eqn:Hneg; [done|].
  apply Z.ltb_ge in Hneg.
  replace (Z.to_nat i <? length a)%nat with true
    by (symmetry; apply Nat.ltb_lt; lia).
  by rewrite length_insert.
Qed.

(** A countdown that writes [v i] at index [i + o] for
    [i = n - 1, ..., 0] into an array that is long enough. *)
Lemma descend_array_set (f : Z → list (option A) → list (option A))
    (w : Z → A) (o : nat) :
  (∀ k a, 0 ≤ k → f k a = array_set a (k + Z.of_nat o) (w (k + Z.of_nat o))) →
  ∀ (n : nat) a, (n + o ≤ length a)%nat →
    length (descend f n a) = length a ∧
    ∀ j : nat, descend f n a !! j =
      if bool_decide (o ≤ j < n + o)%nat then Some (Some (w (Z.of_nat j)))
      else a !! j.
Proof.
  intros Hf. induction n as [|n IH]; intros a Hlen.
  - split; [done|]. intros j. rewrite bool_decide_eq_false_2; [done|lia].
  - cbn [descend]. rewrite Hf by lia.
    replace (Z.of_nat n + Z.of_nat o) with (Z.of_nat (n + o)) by lia.
    rewrite array_set_inside by lia.
    destruct (IH (<[(n + o)%nat := Some (w (Z.of_nat (n + o)))]> a)) as [IHlen IHget];
      [rewrite length_insert; lia|].
    rewrite IHlen, length_insert. split; [done|].
    intros j. rewrite IHget.
    destruct (decide (j = n + o)%nat) as [->|Hne].
    + rewrite bool_decide_eq_false_2 by lia.
      rewrite bool_decide_eq_true_2 by lia.
      by rewrite list_lookup_insert_eq by lia.
    + rewrite list_lookup_insert_ne by done.
      destruct (decide (o ≤ j < n + o)%nat).
      * rewrite !bool_decide_eq_true_2 by lia. done.
      * rewrite !bool_decide_eq_false_2 by lia. done.
Qed.

(** A countdown that pushes [a[i]] for [i = n - 1, ..., 0]. *)
Lemma descend_push_get (n : nat) :
  ∀ a b, (n ≤ length a)%nat →
    descend (λ i d, push d (array_get d i)) n (a ++ b)
    = a ++ b ++ reverse (take n a).
Proof.
  induction n as [|n IH]; intros a b Hlen.
  - by rewrite take_0, reverse_nil, !app_nil_r.
  - cbn [descend]. rewrite array_get_lookup.
    destruct (lookup_lt_is_Some_2 a n ltac:(lia)) as [slot Hslot].
    rewrite lookup_app_l by lia. rewrite Hslot.
    unfold push. rewrite <- app_assoc.
    rewrite (IH a (b ++ [mjoin (Some slot)])) by lia.
    rewrite (take_S_r a n slot Hslot), reverse_app, reverse_singleton.
    rewrite <- !app_assoc. simpl. by destruct slot.
Qed.

(** A count up that writes at the end of the array each time. *)
Lemma ascend_array_set_end (w : Z → A) (n : nat) :
  ∀ a,
    ascend (λ i p, array_set p i (w i)) (Z.of_nat (length a)) n a
    = a ++ ((λ i, Some (w i)) <$> seqZ (Z.of_nat (length a)) (Z.of_nat n)).
Proof.
  induction n as [|n IH]; intros a.
  - by rewrite app_nil_r.
  - cbn [ascend]. rewrite array_set_end.
    replace (Z.of_nat (length a) + 1) with (Z.of_nat (length (a ++ [Some (w (Z.of_nat (length a)))])))
      by (rewrite length_app; simpl; lia).
    rewrite IH. rewrite <- app_assoc. f_equal.
    rewrite length_app. simpl.
    rewrite (seqZ_cons (Z.of_nat (length a)) (Z.of_nat (S n))) by lia.
    rewrite fmap_cons. simpl. do 2 f_equal.
    f_equal; lia.
Qed.

(** A countdown from [n] that writes [w i] at index [i] of an empty array
    fills the indices 0 to [n - 1], leaving no hole. *)
Lemma descend_array_set_empty (w : Z → A) (n : nat) :
  descend (λ i t, array_set t i (w i)) n []
  = (λ i, Some (w i)) <$> seqZ 0 (Z.of_nat n).
Proof.
  destruct n as [|k]; [done|].
  cbn [descend]. rewrite array_set_outside by (simpl; lia).
  simpl length. rewrite Nat.sub_0_r, app_nil_l.
  destruct (descend_array_set (λ i t, array_set t i (w i)) w 0) with
    (n := k) (a := replicate k None ++ [Some (w (Z.of_nat k))]) as [Hlen Hget].
  { intros j a Hj. simpl. by rewrite Z.add_0_r. }
  { rewrite length_app, length_replicate. simpl. lia. }
  apply list_eq. intros j. rewrite Hget, list_lookup_fmap.
  destruct (decide (j < k)%nat).
  - rewrite bool_decide_eq_true_2 by lia. rewrite lookup_seqZ_lt by lia.
    simpl. by rewrite Z.add_0_l.
  - rewrite bool_decide_eq_false_2 by lia.
    destruct (decide (j = k)) as [->|].
    + rewrite lookup_app_r by (rewrite length_replicate; lia).
      rewrite length_replicate, Nat.sub_diag.
      rewrite lookup_seqZ_lt by lia. simpl. by rewrite Z.add_0_l.
    + rewrite lookup_ge_None_2
        by (rewrite length_app, length_replicate; simpl; lia).
      by rewrite lookup_seqZ_ge by lia.
Qed.

End Arrays.

(** Counting loops that push the counter. *)

Lemma ascend_push (n : nat) :
  ∀ (i : Z) (a : list (option Z)),
    ascend (λ i steps, push steps (Some i)) i n a
    = a ++ (Some <$> seqZ i (Z.of_nat n)).
Proof.
  induction n as [|n IH]; intros i a.
  - by rewrite app_nil_r.
  - cbn [ascend]. rewrite IH. unfold push. rewrite <- app_assoc. f_equal.
    rewrite (seqZ_cons i (Z.of_nat (S n))) by lia.
    rewrite fmap_cons. simpl. do 2 f_equal.
    f_equal; lia.
Qed.

Lemma descend_push (n : nat) :
  ∀ a : list (option Z),
    descend (λ i steps, push steps (Some i)) n a
    = a ++ (Some <$> reverse (seqZ 0 (Z.of_nat n))).
Proof.
  induction n as [|n IH]; intros a.
  - by rewrite app_nil_r.
  - cbn [descend]. rewrite IH. unfold push. rewrite <- app_assoc. f_equal.
    rewrite seqZ_S, reverse_app, reverse_singleton.
    by rewrite Z.add_0_l.
Qed.

(** ** Line rasterizer *)

Section LineLoop.

Variables (dx dy sx sy : Q) (len : Z).

(** A pass that is not the last one pushes the current point and moves on. *)
Lemma lineStep_continue (w : walk) :
  wi w + 1 ≠ len →
  ∃ x' y' err',
    lineStep dx dy sx sy len w
    = inl (Walk x' y' err' (wp w ++ [Some (wx w, wy w)]) (wi w + 1)).
Proof.
  intros Hne. unfold lineStep, push.
  replace (wi w + 1 =? len) with false by (symmetry; by apply Z.eqb_neq).
  destruct (Qltb (- dx) (werr w)); destruct (Qltb (werr w) dy); eauto.
Qed.

Lemma lineStep_break (w : walk) :
  wi w + 1 = len →
  lineStep dx dy sx sy len w = inr (wp w ++ [Some (wx w, wy w)]).
Proof.
  intros Heq. unfold lineStep, push.
  by replace (wi w + 1 =? len) with true by (symmetry; by apply Z.eqb_eq).
Qed.

(** With [n + 1] points still to emit, the loop emits the current point and
    [n] more, and returns. *)
Lemma line_loop_emits (n : nat) :
  ∀ (fuel : nat) (w : walk),
    wi w + Z.of_nat (S n) = len → (S n ≤ fuel)%nat →
    ∃ q, loop fuel (lineStep dx dy sx sy len) w
         = Done (wp w ++ Some (wx w, wy w) :: q)
       ∧ length q = n ∧ Forall is_Some q.
Proof.
  induction n as [|n IH]; intros fuel w Hi Hfuel;
    (destruct fuel as [|fuel]; [lia|]); cbn [loop].
  - rewrite lineStep_break by lia. by exists [].
  - destruct (lineStep_continue w) as (x' & y' & err' & ->); [lia|].
    destruct (IH fuel (Walk x' y' err' (wp w ++ [Some (wx w, wy w)]) (wi w + 1)))
      as (q & -> & Hlen & Hsome); [simpl; lia|lia|].
    exists (Some (x', y') :: q). simpl. rewrite <- app_assoc.
    split; [done|]. split; [by rewrite Hlen|]. by constructor.
Qed.

End LineLoop.

Section BoundedLine.

Variables (maxLength : nat) (dx dy sx sy : Q) (len : Z).

(** While the array has room, a pass is the pass of [lineStep]. *)
Lemma lineStep_room (w : walk) :
  (length (wp w) < maxLength)%nat →
  Bounded.lineStep maxLength dx dy sx sy len w
  = match lineStep dx dy sx sy len w with
    | inl w' => inl w'
    | inr p => inr (inr p)
    end.
Proof.
  intros Hroom. unfold Bounded.lineStep, Bounded.push, lineStep, push.
  replace (length (wp w) <? maxLength)%nat with true
    by (symmetry; by apply Nat.ltb_lt).
  destruct (wi w + 1 =? len); [done|].
  by destruct (Qltb (- dx) (werr w)), (Qltb (werr w) dy).
Qed.

Lemma lineStep_full (w : walk) :
  (maxLength ≤ length (wp w))%nat →
  Bounded.lineStep maxLength dx dy sx sy len w = inr (inl RangeError).
Proof.
  intros Hfull. unfold Bounded.lineStep, Bounded.push.
  by replace (length (wp w) <? maxLength)%nat with false
    by (symmetry; by apply Nat.ltb_ge).
Qed.

(** A line that fits in an array: no push throws. *)
Lemma line_loop_within (fuel : nat) :
  ∀ w : walk,
    0 ≤ wi w < len → len ≤ Z.of_nat maxLength →
    Z.of_nat (length (wp w)) = wi w →
    match loop fuel (Bounded.lineStep maxLength dx dy sx sy len) w with
    | Done (inr p) => Done p
    | Done (inl e) => Threw e
    | Threw e => Threw e
    | OutOfFuel => OutOfFuel
    end
    = loop fuel (lineStep dx dy sx sy len) w.
Proof.
  induction fuel as [|fuel IH]; intros w Hi Hlen Hp; [done|].
  cbn [loop]. rewrite lineStep_room by lia.
  destruct (Z.eq_dec (wi w + 1) len) as [Heq|Hne].
  - by rewrite lineStep_break.
  - destruct (lineStep_continue dx dy sx sy len w Hne) as (x' & y' & err' & ->).
    apply IH; simpl; [lia|done|]. rewrite length_app. simpl. lia.
Qed.

(** With [len <= 0] the exit test never holds: the loop pushes until the
    array is full, and the next push throws. *)
Lemma line_loop_fills (fuel : nat) :
  ∀ w : walk,
    len ≤ 0 → 0 ≤ wi w →
    loop fuel (Bounded.lineStep maxLength dx dy sx sy len) w
    = if (maxLength - length (wp w) <? fuel)%nat then Done (inl RangeError)
      else OutOfFuel.
Proof.
  induction fuel as [|fuel IH]; intros w Hlen Hi; [done|].
  cbn [loop].
  destruct (decide (length (wp w) < maxLength)%nat) as [Hroom|Hfull].
  - rewrite lineStep_room by done.
    destruct (lineStep_continue dx dy sx sy len w) as (x' & y' & err' & ->);
      [lia|].
    rewrite IH by (simpl; lia). simpl wp. rewrite length_app. simpl length.
    by replace (maxLength - length (wp w))%nat
      with (S (maxLength - (length (wp w) + 1)))%nat by lia.
  - rewrite lineStep_full by lia.
    by replace (maxLength - length (wp w))%nat with 0%nat by lia.
Qed.

End BoundedLine.

Lemma bounded_calculateLine_fills (maxLength fuel : nat) (x y : Q) (a : angle)
    (len : Z) :
  len ≤ 0 →
  Bounded.calculateLine maxLength fuel x y a len
  = if (maxLength <? fuel)%nat then Threw RangeError else OutOfFuel.
Proof.
  intros Hlen. unfold Bounded.calculateLine. cbv zeta.
  rewrite line_loop_fills by done. simpl wp. simpl length.
  rewrite Nat.sub_0_r. by destruct (maxLength <? fuel)%nat.
Qed.


(** The example of the specification: a horizontal line of five points. *)
Example calculateLine_horizontal :
  calculateLine 5 0 0 zeroAngle 5
  = Done [Some (0, 0); Some (1, 0); Some (2, 0); Some (3, 0); Some (4, 0)]%Q.
Proof. reflexivity. Qed.

(** C6. For all coordinates [x], [y], every angle and every integer
    [len >= 1], [calculateLine x y angle len] returns (under any budget of at
    least [len] passes) an array of exactly [len] points, none of them a
    hole, whose first point is [(x, y)]. *)
Theorem calculateLine_length_and_origin (x y : Q) (a : angle) (len : Z)
    (fuel : nat) :
  1 ≤ len → (Z.to_nat len ≤ fuel)%nat →
  ∃ p, calculateLine fuel x y a len = Done p
     ∧ Z.of_nat (length p) = len
     ∧ p !! 0%nat = Some (Some (x, y))
     ∧ Forall is_Some p.
Proof.
  intros Hlen Hfuel. unfold calculateLine. cbv zeta.
  match goal with |- context [loop fuel (lineStep ?dx ?dy ?sx ?sy len) ?w] =>
    destruct (line_loop_emits dx dy sx sy len (Z.to_nat len - 1) fuel w)
      as (q & -> & Hq & Hsome); [simpl; lia|lia|]
  end.
  eexists. split; [done|]. simpl. split; [lia|]. split; [done|].
  constructor; [by eexists|done].
Qed.

Lemma calculateLine_length_and_origin_witness :
  1 ≤ 5 ∧ (Z.to_nat 5 ≤ 5)%nat
  ∧ ∃ p, calculateLine 5 0 0 zeroAngle 5 = Done p
       ∧ Z.of_nat (length p) = 5
       ∧ p !! 0%nat = Some (Some (0%Q, 0%Q))
       ∧ Forall is_Some p.
Proof.
  split; [lia|]. split; [simpl; lia|].
  apply (calculateLine_length_and_origin 0 0 zeroAngle 5 5); [lia|simpl; lia].
Defined.

(** C9 (as the code has it). For every integer [len <= 0] the call
    [calculateLine x y angle len] is not rejected: no check of [len] is
    made, and the counter [i] is at least 1 at every exit test
    [i === length], so the loop never leaves by its [break] and the call
    never returns a line.  Every pass pushes a point; the first [maxLength]
    passes run without an error, and the pass after them ends the call with
    the [RangeError] of the push on a full array. *)
Theorem calculateLine_nonpositive_length (maxLength fuel : nat) (x y : Q)
    (a : angle) (len : Z) :
  len ≤ 0 →
  Bounded.calculateLine maxLength fuel x y a len
  = if (maxLength <? fuel)%nat then Threw RangeError else OutOfFuel.
Proof.
  intros Hlen. unfold Bounded.calculateLine. cbv zeta.
  rewrite line_loop_fills by done. simpl wp. simpl length.
  rewrite Nat.sub_0_r. by destruct (maxLength <? fuel)%nat.
Qed.

Lemma calculateLine_nonpositive_length_witness :
  -2 ≤ 0
  ∧ Bounded.calculateLine 4 4 3 4 zeroAngle (-2) = OutOfFuel
  ∧ Bounded.calculateLine 4 5 3 4 zeroAngle (-2) = Threw RangeError.
Proof.
  split; [lia|]. split.
  - apply (calculateLine_nonpositive_length 4 4 3 4 zeroAngle (-2)). lia.
  - apply (calculateLine_nonpositive_length 4 5 3 4 zeroAngle (-2)). lia.
Defined.

(** C9, as the specification words it, fails at length 0: whatever the
    maximum length of an array, the call [calculateLine 0 0 0 0] meets no
    error while the array has room, pass after pass, and it returns no line
    under any budget. *)
Lemma calculateLine_length_zero_not_rejected :
  (¬ ∃ maxLength fuel e,
       (fuel ≤ maxLength)%nat
       ∧ Bounded.calculateLine maxLength fuel 0 0 zeroAngle 0 = Threw e)
  ∧ ¬ ∃ maxLength fuel p,
        Bounded.calculateLine maxLength fuel 0 0 zeroAngle 0 = Done p.
Proof.
  split.
  - intros (maxLength & fuel & e & Hfuel & Hthrew).
    rewrite bounded_calculateLine_fills in Hthrew by done.
    by replace (maxLength <? fuel)%nat with false in Hthrew
      by (symmetry; apply Nat.ltb_ge; lia).
  - intros (maxLength & fuel & p & Hdone).
    rewrite bounded_calculateLine_fills in Hdone by done.
    by destruct (maxLength <? fuel)%nat.
Qed.

(** ** Trajectory builder *)

(** The example of the specification: the icon rises one pixel a step. *)
Example calculateIconMovePoints_rises :
  calculateIconMovePoints 5 10 20 3
  = Done [Some (10, 20); Some (10, 19); Some (10, 18); Some (10, 17)]%Q.
Proof. reflexivity. Qed.

(** The loop of [calculateShadowMovePoints] for the angle [null]. *)
Lemma shadow_fixed_points (x y : Q) (bounceHeight : Z) (fuel : nat) :
  -1 ≤ bounceHeight → (Z.to_nat (bounceHeight + 1) < fuel)%nat →
  calculateShadowMovePoints fuel x y bounceHeight None
  = Done (replicate (Z.to_nat (bounceHeight + 1)) (Some (x, y))).
Proof.
  intros Hbh Hfuel. unfold calculateShadowMovePoints.
  rewrite (while_countup (λ i, i <=? bounceHeight)
             (λ i p, array_set p i (x, y)) (Z.to_nat (bounceHeight + 1)));
    [|intros k Hk; apply Z.leb_le; lia|apply Z.leb_gt; lia|done].
  f_equal.
  rewrite (ascend_array_set_end (λ _, (x, y)) _ []). simpl.
  rewrite (const_fmap _ _ (Some (x, y))) by done.
  by rewrite length_seqZ, Nat2Z.id.
Qed.

(** C5. With the angle [null] the shadow stays put:
    [calculateShadowMovePoints] returns [bounceHeight + 1] copies of
    [(x, y)].  With a number for the angle, the number 0 included, it returns
    what [calculateLine] returns for [bounceHeight + 1] points; at angle 0
    these points move along x, so 0 is not taken for [null].  In particular
    [calculateShadowMovePoints(10, 20, 3, null)] is four times [(10, 20)]. *)
Theorem calculateShadowMovePoints_null_and_zero (x y : Q) (bounceHeight : Z)
    (a : angle) (fuel : nat) :
  0 ≤ bounceHeight → (Z.to_nat bounceHeight + 2 ≤ fuel)%nat →
  calculateShadowMovePoints fuel x y bounceHeight None
    = Done (replicate (Z.to_nat (bounceHeight + 1)) (Some (x, y)))
  ∧ calculateShadowMovePoints fuel x y bounceHeight (Some a)
    = calculateLine fuel x y a (bounceHeight + 1)
  ∧ calculateShadowMovePoints fuel x y bounceHeight (Some zeroAngle)
    = calculateLine fuel x y zeroAngle (bounceHeight + 1)
  ∧ calculateShadowMovePoints 5 10 20 3 None
    = Done [Some (10, 20); Some (10, 20); Some (10, 20); Some (10, 20)]%Q
  ∧ calculateShadowMovePoints 5 10 20 3 (Some zeroAngle)
    = Done [Some (10, 20); Some (11, 20); Some (12, 20); Some (13, 20)]%Q.
Proof.
  intros Hbh Hfuel.
  split; [apply shadow_fixed_points; lia|].
  repeat split; reflexivity.
Qed.

Lemma calculateShadowMovePoints_null_and_zero_witness :
  0 ≤ 3 ∧ (Z.to_nat 3 + 2 ≤ 5)%nat
  ∧ calculateShadowMovePoints 5 10 20 3 None
    = Done (replicate (Z.to_nat (3 + 1)) (Some (10, 20)%Q)).
Proof.
  split; [lia|]. split; [simpl; lia|].
  apply (calculateShadowMovePoints_null_and_zero 10 20 3 zeroAngle 5);
    [lia|simpl; lia].
Defined.

Section ResizeTransforms.

Variable Number_toString : Q → string.

Lemma resize_transforms_array (x y : Q) (height contractHeight : Z)
    (fuel : nat) :
  -1 ≤ contractHeight → (Z.to_nat (contractHeight + 1) < fuel)%nat →
  calculateIconResizeTransforms Number_toString fuel x y height contractHeight
  = Done ((λ i, Some (resizeTransform Number_toString x y height i))
            <$> seqZ 0 (contractHeight + 1)).
Proof.
  intros Hch Hfuel. unfold calculateIconResizeTransforms.
  rewrite (while_countdown
             (λ dH t, array_set t dH (resizeTransform Number_toString x y height dH)))
    by lia.
  by rewrite descend_array_set_empty, Z2Nat.id by lia.
Qed.

End ResizeTransforms.

Lemma inject_Z_nonzero (n : Z) : n ≠ 0 → ¬ (inject_Z n == 0)%Q.
Proof. intros Hn Heq. unfold Qeq in Heq. simpl in Heq. lia. Qed.

(** C8. For [height] other than 0 and a contraction of [contractHeight]
    pixels, [calculateIconResizeTransforms] returns [contractHeight + 1]
    transforms; entry [i] scales the y axis by the quotient of [height - i]
    by [height] and moves to [(x, y + i)].  For [height = 10] and
    [contractHeight = 2] the three scale factors are 1, 9/10 and 8/10 and
    the y translations are [y], [y + 1] and [y + 2]. *)
Theorem calculateIconResizeTransforms_entries (Number_toString : Q → string)
    (x y : Q) (height contractHeight : Z) (fuel : nat) :
  height ≠ 0 → 0 ≤ contractHeight → (Z.to_nat contractHeight + 2 ≤ fuel)%nat →
  (∃ t,
     calculateIconResizeTransforms Number_toString fuel x y height
       contractHeight = Done t
     ∧ Z.of_nat (length t) = contractHeight + 1
     ∧ ∀ i, 0 ≤ i ≤ contractHeight →
         ∃ scale,
           array_get t i
           = Some (matrix3d (Number_toString scale) (Number_toString x)
                     (Number_toString (y + inject_Z i)%Q))
           ∧ (scale * inject_Z height == inject_Z (height - i))%Q)
  ∧ ∃ s0 s1 s2 y0 y1 y2,
      calculateIconResizeTransforms Number_toString 4 x y 10 2
      = Done [Some (matrix3d (Number_toString s0) (Number_toString x)
                      (Number_toString y0));
              Some (matrix3d (Number_toString s1) (Number_toString x)
                      (Number_toString y1));
              Some (matrix3d (Number_toString s2) (Number_toString x)
                      (Number_toString y2))]
      ∧ (s0 == 1 ∧ s1 == 9 # 10 ∧ s2 == 8 # 10)%Q
      ∧ (y0 == y ∧ y1 == y + 1 ∧ y2 == y + 2)%Q.
Proof.
  intros Hheight Hch Hfuel. split.
  - rewrite resize_transforms_array by lia. eexists. split; [done|].
    split; [rewrite length_fmap, length_seqZ; lia|].
    intros i Hi. eexists. split.
    + replace i with (Z.of_nat (Z.to_nat i)) at 1 by lia.
      rewrite array_get_lookup, list_lookup_fmap, lookup_seqZ_lt by lia.
      simpl. rewrite Z.add_0_l, Z2Nat.id by lia. reflexivity.
    + rewrite Qmult_comm. apply Qmult_div_r. by apply inject_Z_nonzero.
  - rewrite resize_transforms_array by (simpl; lia).
    eexists _, _, _, _, _, _. split; [reflexivity|].
    split; [by repeat split|].
    split; [apply Qplus_0_r|]. split; apply Qeq_refl.
Qed.

Lemma calculateIconResizeTransforms_entries_witness :
  let show := λ q : Q, pretty (Qnum q) +:+ "/" +:+ pretty (Z.pos (Qden q)) in
  10 ≠ 0 ∧ 0 ≤ 2 ∧ (Z.to_nat 2 + 2 ≤ 4)%nat
  ∧ ∃ t, calculateIconResizeTransforms show 4 5 7 10 2 = Done t
       ∧ Z.of_nat (length t) = 2 + 1.
Proof.
  intros show. split; [lia|]. split; [lia|]. split; [simpl; lia|].
  destruct (calculateIconResizeTransforms_entries show 5 7 10 2 4)
    as [(t & Ht & Hlen & _) _]; [lia|lia|simpl; lia|].
  by exists t.
Defined.

(** ** Timing engine: step sequences *)

Lemma calculateSteps_hit (fuel : nat) (height : Z) (prefix : string)
    (s : state) (r : ref) :
  bouncingMotionsCache s !! stepsKey height prefix = Some r →
  calculateSteps fuel height prefix s = Done (r, s).
Proof.
  intros Hhit. unfold calculateSteps, bind, cacheGet, stepsKey in *.
  by rewrite Hhit.
Qed.

Lemma calculateSteps_miss (fuel : nat) (height : Z) (prefix : string)
    (s : state) :
  0 ≤ height → (Z.to_nat height < fuel)%nat →
  bouncingMotionsCache s !! stepsKey height prefix = None →
  calculateSteps fuel height prefix s
  = Done (length (arrays s),
          State (<[stepsKey height prefix := length (arrays s)]>
                   (bouncingMotionsCache s))
            (arrays s ++ [Some <$> stepSequence height])
            (motions s) (markers s)).
Proof.
  intros Hheight Hfuel Hmiss.
  unfold calculateSteps, bind, cacheGet, stepsKey in *. rewrite Hmiss.
  rewrite (while_countup (λ i, i <=? height) (λ i steps, push steps (Some i))
             (Z.to_nat height));
    [|intros k Hk; apply Z.leb_le; lia|apply Z.leb_gt; lia|done].
  cbn [pure]. rewrite ascend_push, app_nil_l.
  rewrite (while_countdown (λ i steps, push steps (Some i))) by done.
  cbn [pure]. rewrite descend_push. unfold cachePut, stepSequence.
  by rewrite fmap_app, Z2Nat.id by lia.
Qed.

Lemma stepSequence_length (height : Z) :
  0 ≤ height → Z.of_nat (length (stepSequence height)) = 2 * height.
Proof.
  intros Hheight. unfold stepSequence.
  rewrite length_app, length_reverse, !length_seqZ. lia.
Qed.

(** ** Timing engine: delay tables *)

(** The array [deltas] when the loop [while (--i)] has exited. *)
Lemma outbound_deltas (height speed : Z) :
  1 ≤ height →
  descend
    (λ k, (λ i deltas,
             array_set deltas i
               (Math_round (inject_Z speed / inject_Z (height - i)))) (k + 1))
    (Z.to_nat height - 1) (array_set (array_set [] height speed) 0 0)
  = Some <$> (delta height speed <$> seqZ 0 (height + 1)).
Proof.
  intros Hheight. set (n := (Z.to_nat height - 1)%nat).
  assert (height = Z.of_nat (S n)) as Hn by lia.
  set (w := λ i, Math_round (inject_Z speed / inject_Z (height - i))).
  assert (array_set (array_set [] height speed) 0 0
          = Some 0 :: replicate n None ++ [Some speed]) as ->.
  { rewrite Hn at 1. rewrite array_set_outside by (simpl; lia).
    simpl length. rewrite Nat.sub_0_r, app_nil_l.
    by rewrite (array_set_inside _ 0%nat) by (simpl; lia). }
  destruct (descend_array_set (λ k d, array_set d (k + 1) (w (k + 1))) w 1)
    with (n := n) (a := Some 0 :: replicate n None ++ [Some speed])
    as [_ Hget].
  { intros k a Hk. reflexivity. }
  { simpl. rewrite length_app, length_replicate. simpl. lia. }
  apply list_eq. intros j. etrans; [apply Hget|].
  rewrite !list_lookup_fmap.
  destruct (decide (j ≤ S n)%nat) as [Hj|Hj].
  - rewrite lookup_seqZ_lt by lia. cbn [fmap option_fmap option_map].
    rewrite Z.add_0_l. unfold delta.
    destruct (decide (j = 0)%nat) as [->|Hj0].
    { rewrite bool_decide_eq_false_2 by lia.
      rewrite (proj2 (Z.eqb_neq (Z.of_nat 0) height)) by lia. done. }
    destruct (decide (j = S n)) as [->|HjS].
    { rewrite bool_decide_eq_false_2 by lia.
      rewrite (proj2 (Z.eqb_eq (Z.of_nat (S n)) height)) by lia.
      rewrite lookup_cons_ne_0 by done.
      rewrite lookup_app_r by (rewrite length_replicate; lia).
      rewrite length_replicate. by replace (pred (S n) - n)%nat with 0%nat by lia. }
    rewrite bool_decide_eq_true_2 by lia.
    rewrite (proj2 (Z.eqb_neq (Z.of_nat j) height)) by lia.
    by rewrite (proj2 (Z.eqb_neq (Z.of_nat j) 0)) by lia.
  - rewrite bool_decide_eq_false_2 by lia.
    rewrite lookup_seqZ_ge by lia.
    rewrite lookup_ge_None_2; [done|].
    simpl. rewrite length_app, length_replicate. simpl. lia.
Qed.

(** The loop that adds the deltas up. *)
Lemma ascend_cumulate (ds : list Z) :
  ∀ (pre : list Z) (total : Z) (acc : list (option Z)),
    ascend
      (λ i '(totalDelay, delays),
         let totalDelay :=
           add totalDelay (array_get (Some <$> (pre ++ ds)) i) in
         (totalDelay, push delays totalDelay))
      (Z.of_nat (length pre)) (length ds) (Some total, acc)
    = (Some (foldl Z.add total ds), acc ++ (Some <$> cumulativeSums total ds)).
Proof.
  induction ds as [|d ds IH]; intros pre total acc.
  - cbn [length ascend foldl cumulativeSums]. by rewrite fmap_nil, app_nil_r.
  - cbn [length ascend]. rewrite array_get_lookup, list_lookup_fmap.
    rewrite lookup_app_r, Nat.sub_diag by done. cbn.
    replace (Z.of_nat (length pre) + 1) with (Z.of_nat (length (pre ++ [d])))
      by (rewrite length_app; simpl; lia).
    rewrite (cons_middle d pre ds), app_assoc. rewrite IH.
    unfold push. by rewrite <- app_assoc.
Qed.

Lemma calculateDelays_hit (fuel : nat) (height speed : Z) (prefix : string)
    (s : state) (r : ref) :
  bouncingMotionsCache s !! delaysKey height speed prefix = Some r →
  calculateDelays fuel height speed prefix s = Done (r, s).
Proof.
  intros Hhit. unfold calculateDelays, bind, cacheGet, delaysKey in *.
  by rewrite Hhit.
Qed.

Lemma calculateDelays_miss (fuel : nat) (height speed : Z) (prefix : string)
    (s : state) :
  1 ≤ height → (Z.to_nat (2 * height + 1) < fuel)%nat →
  bouncingMotionsCache s !! delaysKey height speed prefix = None →
  calculateDelays fuel height speed prefix s
  = Done (length (arrays s),
          State (<[delaysKey height speed prefix := length (arrays s)]>
                   (bouncingMotionsCache s))
            (arrays s
             ++ [Some <$> cumulativeSums 0 (deltaSequence height speed)])
            (motions s) (markers s)).
Proof.
  intros Hheight Hfuel Hmiss.
  unfold calculateDelays, bind, cacheGet, delaysKey in *. rewrite Hmiss.
  rewrite (while_predecrement
             (λ i deltas,
                array_set deltas i
                  (Math_round (inject_Z speed / inject_Z (height - i)))))
    by lia.
  cbn [pure]. rewrite outbound_deltas by done.
  rewrite (while_countdown (λ i deltas, push deltas (array_get deltas i)))
    by lia.
  cbn [pure].
  set (out := delta height speed <$> seqZ 0 (height + 1)).
  assert (descend (λ i deltas, push deltas (array_get deltas i))
            (Z.to_nat height) (Some <$> out)
          = Some <$> ([] ++ deltaSequence height speed)) as ->.
  { rewrite <- (app_nil_r (Some <$> out)) at 1.
    rewrite descend_push_get
      by (unfold out; rewrite !length_fmap, length_seqZ; lia).
    unfold deltaSequence, out. rewrite !app_nil_l, fmap_app. f_equal.
    rewrite <- !fmap_take, <- !fmap_reverse. do 3 f_equal.
    replace (height + 1) with (height + 1 * 1) by lia.
    rewrite seqZ_app by lia. rewrite take_app_length'; [done|].
    rewrite length_seqZ. lia. }
  set (ds := deltaSequence height speed).
  rewrite (while_ext _ (λ '(i, a), (i <? Z.of_nat (length (Some <$> ([] ++ ds))), (i, a)))
             _ (λ '(i, a),
                  (i + 1,
                   (λ i '(totalDelay, delays),
                      let totalDelay :=
                        add totalDelay (array_get (Some <$> ([] ++ ds)) i) in
                      (totalDelay, push delays totalDelay)) i a)));
    [|by intros [i [t d]]|by intros [i [t d]]].
  assert (length ds = Z.to_nat (2 * height + 1)) as Hlen.
  { unfold ds, deltaSequence.
    rewrite length_app, !length_fmap, length_reverse, !length_seqZ. lia. }
  rewrite (while_countup (λ i, i <? Z.of_nat (length (Some <$> ([] ++ ds))))
             _ (length ds));
    [|intros k Hk; apply Z.ltb_lt; rewrite length_fmap, app_nil_l; lia
     |apply Z.ltb_ge; rewrite length_fmap, app_nil_l; lia
     |lia].
  cbn [pure]. pose proof (ascend_cumulate ds [] 0 []) as Hsums.
  change (Z.of_nat (length (@nil Z))) with 0 in Hsums. cbv zeta in Hsums.
  rewrite Hsums.
  by rewrite app_nil_l.
Qed.

Lemma calculateDelays_nonpositive (height speed : Z) (prefix : string)
    (s : state) :
  height ≤ 0 →
  bouncingMotionsCache s !! delaysKey height speed prefix = None →
  never_returns (λ fuel, calculateDelays fuel height speed prefix s).
Proof.
  intros Hheight Hmiss fuel.
  unfold calculateDelays, bind, cacheGet, delaysKey in *. rewrite Hmiss.
  by rewrite (while_predecrement_nonpositive
                (λ i deltas,
                   array_set deltas i
                     (Math_round (inject_Z speed / inject_Z (height - i)))))
    by done.
Qed.

Lemma deltaSequence_length (height speed : Z) :
  0 ≤ height →
  Z.of_nat (length (cumulativeSums 0 (deltaSequence height speed)))
  = 2 * height + 1.
Proof.
  intros Hheight.
  assert (∀ ds total, length (cumulativeSums total ds) = length ds) as ->
    by (intros ds; induction ds as [|d ds IH]; intros total; simpl;
        [done|by rewrite IH]).
  unfold deltaSequence.
  rewrite length_app, !length_fmap, length_reverse, !length_seqZ. lia.
Qed.

Lemma returned_fresh (cache : gmap string ref) (heap : list (list (option Z)))
    (a : list (option Z)) (ms : gmap ref BouncingMotion) (mk : gmap ref Marker) :
  returned (Done (length heap, State cache (heap ++ [a]) ms mk)) = Some a.
Proof. simpl. by rewrite lookup_app_r, Nat.sub_diag by done. Qed.

(** What a call that missed the cache and returned has done. *)
Lemma calculateSteps_miss_shape (fuel : nat) (height : Z) (prefix : string)
    (s s' : state) (r : ref) :
  bouncingMotionsCache s !! stepsKey height prefix = None →
  calculateSteps fuel height prefix s = Done (r, s') →
  ∃ a, r = length (arrays s)
     ∧ s' = State (<[stepsKey height prefix := r]> (bouncingMotionsCache s))
              (arrays s ++ [a]) (motions s) (markers s).
Proof.
  intros Hmiss. unfold calculateSteps, bind, cacheGet, stepsKey in *.
  rewrite Hmiss.
  destruct (while fuel _ _ (1, [])) as [[i steps]| |]; cbn [pure]; [|done..].
  destruct (while fuel _ _ (height, steps)) as [[j steps']| |]; cbn [pure];
    [|done..].
  unfold cachePut. intros [= <- <-]. by eexists.
Qed.

Lemma calculateDelays_miss_shape (fuel : nat) (height speed : Z)
    (prefix : string) (s s' : state) (r : ref) :
  bouncingMotionsCache s !! delaysKey height speed prefix = None →
  calculateDelays fuel height speed prefix s = Done (r, s') →
  ∃ a, r = length (arrays s)
     ∧ s' = State (<[delaysKey height speed prefix := r]>
                     (bouncingMotionsCache s))
              (arrays s ++ [a]) (motions s) (markers s).
Proof.
  intros Hmiss. unfold calculateDelays, bind, cacheGet, delaysKey in *.
  rewrite Hmiss.
  destruct (while fuel _ _ (height, _)) as [[i deltas]| |]; cbn [pure];
    [|done..].
  destruct (while fuel _ _ (height, deltas)) as [[j deltas']| |]; cbn [pure];
    [|done..].
  destruct (while fuel _ _ (0, (Some 0, []))) as [[k [total delays]]| |];
    cbn [pure]; [|done..].
  unfold cachePut. intros [= <- <-]. by eexists.
Qed.

(** ** The claims about the timing engine *)

(** C1 (as the code has it). For every [height >= 1], every speed and all
    prefixes, on a cache miss, the table [calculateDelays] returns has
    exactly [2 * height + 1] entries: one more than the [2 * height] entries
    of the sequence [calculateSteps] returns for the same height. *)
Theorem calculateDelays_length (fuel : nat) (height speed : Z)
    (prefix prefix' : string) (s : state) :
  1 ≤ height → (Z.to_nat (2 * height + 1) < fuel)%nat →
  bouncingMotionsCache s !! delaysKey height speed prefix = None →
  bouncingMotionsCache s !! stepsKey height prefix' = None →
  ∃ delays steps,
    returned (calculateDelays fuel height speed prefix s) = Some delays
    ∧ returned (calculateSteps fuel height prefix' s) = Some steps
    ∧ Z.of_nat (length delays) = 2 * height + 1
    ∧ Z.of_nat (length steps) = 2 * height.
Proof.
  intros Hheight Hfuel Hdelays Hsteps.
  rewrite calculateDelays_miss, calculateSteps_miss by (done || lia).
  rewrite !returned_fresh. eexists _, _. split; [done|]. split; [done|].
  rewrite !length_fmap.
  split; [apply deltaSequence_length|apply stepSequence_length]; lia.
Qed.

Lemma calculateDelays_length_witness :
  1 ≤ 3 ∧ (Z.to_nat (2 * 3 + 1) < 8)%nat
  ∧ ∃ delays steps,
      returned (calculateDelays 8 3 52 "moveDelays_" freshState) = Some delays
      ∧ returned (calculateSteps 8 3 "moveSteps_" freshState) = Some steps
      ∧ Z.of_nat (length delays) = 2 * 3 + 1
      ∧ Z.of_nat (length steps) = 2 * 3.
Proof.
  split; [lia|]. split; [simpl; lia|].
  apply (calculateDelays_length 8 3 52 "moveDelays_" "moveSteps_" freshState);
    [lia|simpl; lia|reflexivity|reflexivity].
Defined.

(** C1, as the specification words it, fails at height 1: the delay table
    has three entries, the step sequence two. *)
Lemma calculateDelays_length_counterexample :
  returned (calculateDelays 4 1 52 "moveDelays_" freshState)
    = Some [Some 0; Some 52; Some 52]
  ∧ returned (calculateSteps 4 1 "moveSteps_" freshState)
    = Some [Some 1; Some 0]
  ∧ Z.of_nat (length [Some 0; Some 52; Some 52]) ≠ 2 * 1.
Proof. split; [reflexivity|]. split; [reflexivity|]. simpl. lia. Qed.

(** C2 does not hold of the code when a delay table is cached under the key
    of the step sequence: after [calculateDelays(3, 5, "m_")],
    [calculateSteps(5, "m_3_")] finds the key ["m_3_5"] in the cache and
    returns the delay table, which is not [1, 2, 3, 4, 5, 4, 3, 2, 1, 0]. *)
Theorem calculateSteps_key_collision :
  stepsKey 5 "m_3_" = delaysKey 3 5 "m_"
  ∧ returned ((let* _ := calculateDelays 8 3 5 "m_" in
               calculateSteps 8 5 "m_3_") freshState)
    = Some [Some 0; Some 3; Some 8; Some 13; Some 18; Some 21; Some 21]
  ∧ Some <$> stepSequence 5
    = [Some 1; Some 2; Some 3; Some 4; Some 5;
       Some 4; Some 3; Some 2; Some 1; Some 0]
  ∧ returned ((let* _ := calculateDelays 8 3 5 "m_" in
               calculateSteps 8 5 "m_3_") freshState)
    ≠ Some (Some <$> stepSequence 5).
Proof.
  split; [reflexivity|]. split; [reflexivity|]. split; [reflexivity|].
  intros Heq. vm_compute in Heq. discriminate Heq.
Qed.

(** X1. On a cache miss, for every [height >= 0] and every prefix,
    [calculateSteps] returns [1, ..., height] followed by
    [height - 1, ..., 0], which has [2 * height] entries; for height 3 it
    returns [1, 2, 3, 2, 1, 0]. *)
Theorem calculateSteps_sequence_on_miss (fuel : nat) (height : Z)
    (prefix : string) (s : state) :
  0 ≤ height → (Z.to_nat height < fuel)%nat →
  bouncingMotionsCache s !! stepsKey height prefix = None →
  returned (calculateSteps fuel height prefix s)
    = Some (Some <$> stepSequence height)
  ∧ Z.of_nat (length (stepSequence height)) = 2 * height
  ∧ returned (calculateSteps 4 3 "m_" freshState)
    = Some [Some 1; Some 2; Some 3; Some 2; Some 1; Some 0].
Proof.
  intros Hheight Hfuel Hmiss.
  split; [by rewrite calculateSteps_miss, returned_fresh by done|].
  split; [by apply stepSequence_length|reflexivity].
Qed.

Lemma calculateSteps_sequence_on_miss_witness :
  0 ≤ 3 ∧ (Z.to_nat 3 < 4)%nat
  ∧ bouncingMotionsCache freshState !! stepsKey 3 "m_" = None
  ∧ returned (calculateSteps 4 3 "m_" freshState)
    = Some (Some <$> stepSequence 3)
  ∧ Z.of_nat (length (stepSequence 3)) = 2 * 3.
Proof.
  split; [lia|]. split; [simpl; lia|]. split; [reflexivity|].
  destruct (calculateSteps_sequence_on_miss 4 3 "m_" freshState)
    as (Hsteps & Hlength & _); [lia|simpl; lia|reflexivity|].
  by split.
Defined.

(** C3. For every [height >= 1], every speed and prefix, on a cache miss,
    [calculateDelays] returns the cumulative sums of the delta sequence:
    the outbound deltas [delta[0], ..., delta[height]], where
    [delta[height] = speed], [delta[0] = 0] and
    [delta[i] = round(speed / (height - i))] in between, followed by the
    return leg [delta[height - 1], ..., delta[0]]. *)
Theorem calculateDelays_cumulative_deltas (fuel : nat) (height speed : Z)
    (prefix : string) (s : state) :
  1 ≤ height → (Z.to_nat (2 * height + 1) < fuel)%nat →
  bouncingMotionsCache s !! delaysKey height speed prefix = None →
  returned (calculateDelays fuel height speed prefix s)
    = Some (Some <$> cumulativeSums 0 (deltaSequence height speed))
  ∧ (∀ i, 0 ≤ i ≤ height →
       deltaSequence height speed !! Z.to_nat i = Some (delta height speed i))
  ∧ (∀ k, 0 ≤ k < height →
       deltaSequence height speed !! Z.to_nat (height + 1 + k)
       = Some (delta height speed (height - 1 - k)))
  ∧ delta height speed height = speed
  ∧ delta height speed 0 = 0
  ∧ (∀ i, 0 < i < height →
       delta height speed i
       = Math_round (inject_Z speed / inject_Z (height - i))).
Proof.
  intros Hheight Hfuel Hmiss.
  split; [by rewrite calculateDelays_miss, returned_fresh by (done || lia)|].
  unfold deltaSequence. split; [|split].
  - intros i Hi.
    rewrite lookup_app_l by (rewrite length_fmap, length_seqZ; lia).
    rewrite list_lookup_fmap, lookup_seqZ_lt by lia. simpl.
    by rewrite Z.add_0_l, Z2Nat.id by lia.
  - intros k Hk.
    rewrite lookup_app_r by (rewrite length_fmap, length_seqZ; lia).
    rewrite length_fmap, length_seqZ, list_lookup_fmap.
    replace (Z.to_nat (height + 1 + k) - Z.to_nat (height + 1))%nat
      with (Z.to_nat k) by lia.
    rewrite reverse_lookup by (rewrite length_seqZ; lia).
    rewrite length_seqZ, lookup_seqZ_lt by lia. simpl. f_equal. f_equal. lia.
  - unfold delta. rewrite Z.eqb_refl.
    rewrite (proj2 (Z.eqb_neq 0 height)) by lia. split; [done|].
    split; [done|]. intros i Hi.
    rewrite (proj2 (Z.eqb_neq i height)) by lia.
    by rewrite (proj2 (Z.eqb_neq i 0)) by lia.
Qed.

Lemma calculateDelays_cumulative_deltas_witness :
  1 ≤ 3 ∧ (Z.to_nat (2 * 3 + 1) < 8)%nat
  ∧ returned (calculateDelays 8 3 5 "moveDelays_" freshState)
    = Some (Some <$> cumulativeSums 0 (deltaSequence 3 5)).
Proof.
  split; [lia|]. split; [simpl; lia|].
  apply (calculateDelays_cumulative_deltas 8 3 5 "moveDelays_" freshState);
    [lia|simpl; lia|reflexivity].
Defined.

Lemma calculateSteps_returns (fuel : nat) (height : Z) (prefix : string)
    (s : state) :
  0 ≤ height → (Z.to_nat height < fuel)%nat →
  ∃ r s', calculateSteps fuel height prefix s = Done (r, s').
Proof.
  intros Hheight Hfuel.
  destruct (bouncingMotionsCache s !! stepsKey height prefix) as [r|] eqn:Hkey.
  - rewrite (calculateSteps_hit _ _ _ _ r) by done. by eexists _, _.
  - rewrite calculateSteps_miss by done. by eexists _, _.
Qed.

Lemma calculateDelays_returns (fuel : nat) (height speed : Z)
    (prefix : string) (s : state) :
  1 ≤ height → (Z.to_nat (2 * height + 1) < fuel)%nat →
  ∃ r s', calculateDelays fuel height speed prefix s = Done (r, s').
Proof.
  intros Hheight Hfuel.
  destruct (bouncingMotionsCache s !! delaysKey height speed prefix) as [r|]
    eqn:Hkey.
  - rewrite (calculateDelays_hit _ _ _ _ _ r) by done. by eexists _, _.
  - rewrite calculateDelays_miss by done. by eexists _, _.
Qed.

(** What a call that returned has done to the shared state: the marker
    objects are as they were, the result is cached under the key, and no
    entry of the cache was changed or removed. *)
Lemma calculateSteps_effect (fuel : nat) (height : Z) (prefix : string)
    (s s' : state) (r : ref) :
  calculateSteps fuel height prefix s = Done (r, s') →
  motions s' = motions s ∧ markers s' = markers s
  ∧ bouncingMotionsCache s' !! stepsKey height prefix = Some r
  ∧ bouncingMotionsCache s ⊆ bouncingMotionsCache s'
  ∧ (cache_wf s → cache_wf s' ∧ (r < length (arrays s'))%nat).
Proof.
  intros Hrun.
  destruct (bouncingMotionsCache s !! stepsKey height prefix) as [r0|] eqn:Hkey.
  - rewrite (calculateSteps_hit _ _ _ _ r0) in Hrun by done.
    injection Hrun as <- <-. do 4 (split; [done|]).
    intros Hwf. split; [done|]. by apply (Hwf _ _ Hkey).
  - destruct (calculateSteps_miss_shape _ _ _ _ _ _ Hkey Hrun) as (a & -> & ->).
    simpl. rewrite lookup_insert_eq. do 3 (split; [done|]).
    split; [by apply insert_subseteq|].
    intros Hwf. rewrite length_app. simpl. split; [|lia].
    intros key r Hlook. simpl in *. rewrite length_app. simpl.
    destruct (decide (stepsKey height prefix = key)) as [<-|Hne].
    + rewrite lookup_insert_eq in Hlook. injection Hlook as <-. lia.
    + rewrite lookup_insert_ne in Hlook by done.
      pose proof (Hwf _ _ Hlook). lia.
Qed.

Lemma calculateDelays_effect (fuel : nat) (height speed : Z) (prefix : string)
    (s s' : state) (r : ref) :
  calculateDelays fuel height speed prefix s = Done (r, s') →
  motions s' = motions s ∧ markers s' = markers s
  ∧ bouncingMotionsCache s' !! delaysKey height speed prefix = Some r
  ∧ bouncingMotionsCache s ⊆ bouncingMotionsCache s'
  ∧ (cache_wf s → cache_wf s' ∧ (r < length (arrays s'))%nat).
Proof.
  intros Hrun.
  destruct (bouncingMotionsCache s !! delaysKey height speed prefix) as [r0|] eqn:Hkey.
  - rewrite (calculateDelays_hit _ _ _ _ _ r0) in Hrun by done.
    injection Hrun as <- <-. do 4 (split; [done|]).
    intros Hwf. split; [done|]. by apply (Hwf _ _ Hkey).
  - destruct (calculateDelays_miss_shape _ _ _ _ _ _ _ Hkey Hrun) as (a & -> & ->).
    simpl. rewrite lookup_insert_eq. do 3 (split; [done|]).
    split; [by apply insert_subseteq|].
    intros Hwf. rewrite length_app. simpl. split; [|lia].
    intros key r Hlook. simpl in *. rewrite length_app. simpl.
    destruct (decide (delaysKey height speed prefix = key)) as [<-|Hne].
    + rewrite lookup_insert_eq in Hlook. injection Hlook as <-. lia.
    + rewrite lookup_insert_ne in Hlook by done.
      pose proof (Hwf _ _ Hlook). lia.
Qed.

(** C4. A second call of [calculateSteps] with the same height and prefix,
    or of [calculateDelays] with the same height, speed and prefix, returns
    the reference the first call returned and changes nothing, so both calls
    give one and the same array of the heap; and the first call does return
    (for a height of at least 0, respectively 1, under a budget that covers
    its loops). *)
Theorem cached_calls_same_instance (fuel fuel' : nat) (height speed : Z)
    (prefix : string) (s : state) :
  cache_wf s →
  (∀ r s1, calculateSteps fuel height prefix s = Done (r, s1) →
     calculateSteps fuel' height prefix s1 = Done (r, s1)
     ∧ is_Some (arrays s1 !! r))
  ∧ (∀ r s1, calculateDelays fuel height speed prefix s = Done (r, s1) →
     calculateDelays fuel' height speed prefix s1 = Done (r, s1)
     ∧ is_Some (arrays s1 !! r))
  ∧ (0 ≤ height → (Z.to_nat height < fuel)%nat →
     ∃ r s1, calculateSteps fuel height prefix s = Done (r, s1))
  ∧ (1 ≤ height → (Z.to_nat (2 * height + 1) < fuel)%nat →
     ∃ r s1, calculateDelays fuel height speed prefix s = Done (r, s1)).
Proof.
  intros Hwf. split; [|split; [|split]].
  - intros r s1 Hrun.
    apply calculateSteps_effect in Hrun as (_ & _ & Hkey & _ & Hwf1).
    split; [by apply calculateSteps_hit|].
    apply lookup_lt_is_Some_2. by apply Hwf1.
  - intros r s1 Hrun.
    apply calculateDelays_effect in Hrun as (_ & _ & Hkey & _ & Hwf1).
    split; [by apply calculateDelays_hit|].
    apply lookup_lt_is_Some_2. by apply Hwf1.
  - apply calculateSteps_returns.
  - apply calculateDelays_returns.
Qed.

Lemma cache_wf_fresh : cache_wf freshState.
Proof. intros key r Hkey. simpl in Hkey. by rewrite lookup_empty in Hkey. Defined.

Lemma cached_calls_same_instance_witness :
  cache_wf freshState
  ∧ (∃ r s1, calculateSteps 8 3 "moveSteps_" freshState = Done (r, s1)
           ∧ calculateSteps 0 3 "moveSteps_" s1 = Done (r, s1)
           ∧ is_Some (arrays s1 !! r))
  ∧ (∃ r s1, calculateDelays 8 3 52 "moveDelays_" freshState = Done (r, s1)
           ∧ calculateDelays 0 3 52 "moveDelays_" s1 = Done (r, s1)
           ∧ is_Some (arrays s1 !! r)).
Proof.
  split; [exact cache_wf_fresh|].
  destruct (cached_calls_same_instance 8 0 3 52 "moveSteps_" freshState
              cache_wf_fresh) as (Hsteps & _ & Hreturns & _).
  destruct (cached_calls_same_instance 8 0 3 52 "moveDelays_" freshState
              cache_wf_fresh) as (_ & Hdelays & _ & Hreturnd).
  split.
  - destruct Hreturns as (r & s1 & Hrun); [lia|simpl; lia|].
    exists r, s1. split; [exact Hrun|]. exact (Hsteps r s1 Hrun).
  - destruct Hreturnd as (r & s1 & Hrun); [lia|simpl; lia|].
    exists r, s1. split; [exact Hrun|]. exact (Hdelays r s1 Hrun).
Defined.

(** C10. [calculateDelays] returns for every [height >= 1] (under a budget of
    more than [2 * height + 1] passes per loop).  On a cache miss with
    [height = 0] the loop [while (--i)] starts from [i = 0]; [i] is negative
    at every test from then on, so the loop does not exit and the call does
    not return.  So on a cache miss the call returns only if [height >= 1].
    (In double arithmetic the decrement stops changing [i] at -2^53, which
    is not zero either.) *)
Theorem calculateDelays_returns_iff_positive_height (height speed : Z)
    (prefix : string) (s : state) :
  (1 ≤ height →
   ∀ fuel, (Z.to_nat (2 * height + 1) < fuel)%nat →
     ∃ r s', calculateDelays fuel height speed prefix s = Done (r, s'))
  ∧ (bouncingMotionsCache s !! delaysKey height speed prefix = None →
     (height = 0 →
      never_returns (λ fuel, calculateDelays fuel height speed prefix s))
     ∧ ((∃ fuel r s', calculateDelays fuel height speed prefix s = Done (r, s'))
        → 1 ≤ height)).
Proof.
  split; [intros Hheight fuel Hfuel; by apply calculateDelays_returns|].
  intros Hmiss. split.
  - intros ->. by apply calculateDelays_nonpositive.
  - intros (fuel & r & s' & Hrun).
    destruct (decide (1 ≤ height)) as [|Hle]; [done|].
    rewrite (calculateDelays_nonpositive height speed prefix s) in Hrun
      by (done || lia).
    done.
Qed.

Lemma calculateDelays_returns_iff_positive_height_witness :
  (∃ r s', calculateDelays 4 1 52 "moveDelays_" freshState = Done (r, s'))
  ∧ never_returns (λ fuel, calculateDelays fuel 0 52 "moveDelays_" freshState).
Proof.
  split.
  - apply (calculateDelays_returns_iff_positive_height 1 52 "moveDelays_"
             freshState); [lia|simpl; lia].
  - apply (calculateDelays_returns_iff_positive_height 0 52 "moveDelays_"
             freshState); reflexivity.
Defined.

(** ** The timeline of a marker *)

Lemma setMotion_run (marker : ref) (set : BouncingMotion → BouncingMotion)
    (s : state) (m : Marker) (bm : BouncingMotion) :
  markers s !! marker = Some m →
  motions s !! _bouncingMotion m = Some bm →
  setMotion marker set s
  = Done (tt, State (bouncingMotionsCache s) (arrays s)
                (<[_bouncingMotion m := set bm]> (motions s)) (markers s)).
Proof. intros Hm Hbm. unfold setMotion. by rewrite Hm, Hbm. Qed.

Lemma calculateTimeline_effect (fuel : nat) (marker : ref) (s s' : state)
    (m : Marker) (bm : BouncingMotion) (r : ref) :
  markers s !! marker = Some m →
  motions s !! _bouncingMotion m = Some bm →
  calculateTimeline fuel marker s = Done (r, s') →
  r = marker ∧ markers s' = markers s
  ∧ ∃ bm', motions s' = <[_bouncingMotion m := bm']> (motions s)
         ∧ timeline_written (_bouncingOptions m) (bouncingMotionsCache s')
             bm bm'.
Proof.
  intros Hm Hbm. unfold calculateTimeline, bind, getOptions, ret.
  rewrite Hm. set (o := _bouncingOptions m).
  destruct (calculateSteps fuel (bounceHeight o) "moveSteps_" s)
    as [[r1 s1]| |] eqn:H1; [|done..].
  apply calculateSteps_effect in H1 as (Hmo1 & Hmk1 & Hc1 & Hsub1 & _).
  rewrite (setMotion_run marker _ s1 m bm) by congruence.
  match goal with |- context [calculateDelays _ _ _ _ ?s] => set (s2 := s) end.
  destruct (calculateDelays fuel (bounceHeight o) (bounceSpeed o)
              "moveDelays_" s2) as [[r2 s3]| |] eqn:H2; [|done..].
  apply calculateDelays_effect in H2 as (Hmo3 & Hmk3 & Hc3 & Hsub3 & _).
  simpl in Hmo3, Hmk3, Hsub3.
  rewrite (setMotion_run marker _ s3 m
             (Build_BouncingMotion (Some r1) (moveDelays bm) (resizeSteps bm)
                (resizeDelays bm)))
    by (rewrite ?Hmo3, ?Hmo1, ?lookup_insert_eq; congruence).
  rewrite Hmo3, Hmo1, insert_insert_eq. simpl.
  unfold timeline_written. fold o. destruct (elastic o).
  - match goal with |- context [calculateSteps _ _ _ ?s] => set (s4 := s) end.
    destruct (calculateSteps fuel (contractHeight o) "resizeSteps_" s4)
      as [[r3 s5]| |] eqn:H3; [|done..].
    apply calculateSteps_effect in H3 as (Hmo5 & Hmk5 & Hc5 & Hsub5 & _).
    simpl in Hmo5, Hmk5, Hsub5.
    rewrite (setMotion_run marker _ s5 m
               (Build_BouncingMotion (Some r1) (Some r2) (resizeSteps bm)
                  (resizeDelays bm)))
      by (rewrite ?Hmo5, ?lookup_insert_eq; congruence).
    rewrite Hmo5, insert_insert_eq. simpl.
    match goal with |- context [calculateDelays _ _ _ _ ?s] => set (s6 := s) end.
    destruct (calculateDelays fuel (contractHeight o) (contractSpeed o)
                "resizeDelays_" s6) as [[r4 s7]| |] eqn:H4; [|done..].
    apply calculateDelays_effect in H4 as (Hmo7 & Hmk7 & Hc7 & Hsub7 & _).
    simpl in Hmo7, Hmk7, Hsub7.
    rewrite (setMotion_run marker _ s7 m
               (Build_BouncingMotion (Some r1) (Some r2) (Some r3)
                  (resizeDelays bm)))
      by (rewrite ?Hmo7, ?lookup_insert_eq; congruence).
    rewrite Hmo7, insert_insert_eq. simpl.
    intros [= <- <-]. simpl. split; [done|]. split; [congruence|].
    eexists. split; [done|]. simpl.
    rewrite (lookup_weaken _ _ _ _ Hc1) by (by repeat (etrans; [eassumption|])).
    rewrite (lookup_weaken _ _ _ _ Hc3) by (by repeat (etrans; [eassumption|])).
    rewrite (lookup_weaken _ _ _ _ Hc5) by done.
    rewrite Hc7. by repeat split.
  - intros [= <- <-]. simpl. split; [done|]. split; [congruence|].
    eexists. split; [done|]. simpl.
    rewrite (lookup_weaken _ _ _ _ Hc1) by done.
    rewrite Hc3. by repeat split.
Qed.

Lemma calculateTimeline_returns (fuel : nat) (marker : ref) (s : state)
    (m : Marker) (bm : BouncingMotion) :
  markers s !! marker = Some m →
  motions s !! _bouncingMotion m = Some bm →
  1 ≤ bounceHeight (_bouncingOptions m) →
  (Z.to_nat (2 * bounceHeight (_bouncingOptions m) + 1) < fuel)%nat →
  (elastic (_bouncingOptions m) = true →
   1 ≤ contractHeight (_bouncingOptions m)
   ∧ (Z.to_nat (2 * contractHeight (_bouncingOptions m) + 1) < fuel)%nat) →
  ∃ r s', calculateTimeline fuel marker s = Done (r, s').
Proof.
  intros Hm Hbm Hbh Hfuel Hch. unfold calculateTimeline, bind, getOptions, ret.
  rewrite Hm. set (o := _bouncingOptions m) in *.
  destruct (calculateSteps_returns fuel (bounceHeight o) "moveSteps_" s)
    as (r1 & s1 & H1); [lia|lia|]. rewrite H1.
  apply calculateSteps_effect in H1 as (Hmo1 & Hmk1 & _).
  rewrite (setMotion_run marker _ s1 m bm) by congruence.
  match goal with |- context [calculateDelays _ _ _ _ ?s] => set (s2 := s) end.
  destruct (calculateDelays_returns fuel (bounceHeight o) (bounceSpeed o)
              "moveDelays_" s2) as (r2 & s3 & H2); [lia|lia|]. rewrite H2.
  apply calculateDelays_effect in H2 as (Hmo3 & Hmk3 & _).
  simpl in Hmo3, Hmk3.
  rewrite (setMotion_run marker _ s3 m
             (Build_BouncingMotion (Some r1) (moveDelays bm) (resizeSteps bm)
                (resizeDelays bm)))
    by (rewrite ?Hmo3, ?lookup_insert_eq; congruence).
  destruct (elastic o); [|by eexists _, _].
  destruct Hch as [Hch Hfuel']; [done|].
  match goal with |- context [calculateSteps _ _ _ ?s] => set (s4 := s) end.
  destruct (calculateSteps_returns fuel (contractHeight o) "resizeSteps_" s4)
    as (r3 & s5 & H3); [lia|lia|]. rewrite H3.
  apply calculateSteps_effect in H3 as (Hmo5 & Hmk5 & _).
  simpl in Hmo5, Hmk5.
  rewrite (setMotion_run marker _ s5 m
             (Build_BouncingMotion (Some r1) (Some r2) (resizeSteps bm)
                (resizeDelays bm)))
    by (rewrite ?Hmo5, ?Hmo3, ?lookup_insert_eq; congruence).
  match goal with |- context [calculateDelays _ _ _ _ ?s] => set (s6 := s) end.
  destruct (calculateDelays_returns fuel (contractHeight o) (contractSpeed o)
              "resizeDelays_" s6) as (r4 & s7 & H4); [lia|lia|]. rewrite H4.
  apply calculateDelays_effect in H4 as (Hmo7 & Hmk7 & _).
  simpl in Hmo7, Hmk7.
  rewrite (setMotion_run marker _ s7 m
             (Build_BouncingMotion (Some r1) (Some r2) (Some r3)
                (resizeDelays bm)))
    by (rewrite ?Hmo7, ?Hmo5, ?Hmo3, ?lookup_insert_eq; congruence).
  by eexists _, _.
Qed.

(** C7. For a marker with its two objects, whenever [calculateTimeline]
    returns it returns the reference it was given, it leaves every marker
    and every other motion object as they were, and in the marker's motion
    object [moveSteps] and [moveDelays] hold the arrays cached for the bounce
    height and speed; [resizeSteps] and [resizeDelays] hold the arrays cached
    for the contraction when [elastic] is true, and are what they were when
    it is false.  The call does return when the heights it uses are at least
    1 and the budget covers the loops. *)
Theorem calculateTimeline_writes (fuel : nat) (marker : ref) (s : state)
    (m : Marker) (bm : BouncingMotion) :
  markers s !! marker = Some m →
  motions s !! _bouncingMotion m = Some bm →
  (∀ r s', calculateTimeline fuel marker s = Done (r, s') →
     r = marker ∧ markers s' = markers s
     ∧ ∃ bm', motions s' = <[_bouncingMotion m := bm']> (motions s)
            ∧ timeline_written (_bouncingOptions m) (bouncingMotionsCache s')
                bm bm')
  ∧ (1 ≤ bounceHeight (_bouncingOptions m) →
     (Z.to_nat (2 * bounceHeight (_bouncingOptions m) + 1) < fuel)%nat →
     (elastic (_bouncingOptions m) = true →
      1 ≤ contractHeight (_bouncingOptions m)
      ∧ (Z.to_nat (2 * contractHeight (_bouncingOptions m) + 1) < fuel)%nat) →
     ∃ s', calculateTimeline fuel marker s = Done (marker, s')).
Proof.
  intros Hm Hbm. split.
  - intros r s'. by apply calculateTimeline_effect.
  - intros Hbh Hfuel Hch.
    destruct (calculateTimeline_returns fuel marker s m bm)
      as (r & s' & Hrun); [done..|].
    destruct (calculateTimeline_effect _ _ _ _ _ _ _ Hm Hbm Hrun) as [-> _].
    by exists s'.
Qed.

Lemma calculateTimeline_writes_witness :
  markers oneMarkerState !! 0%nat
    = Some (Build_Marker (Build_BouncingOptions 15 52 true 12 52) 1%nat)
  ∧ motions oneMarkerState !! 1%nat
    = Some (Build_BouncingMotion None None None None)
  ∧ ∃ s', calculateTimeline 40 0%nat oneMarkerState = Done (0%nat, s').
Proof.
  split; [reflexivity|]. split; [reflexivity|].
  apply (calculateTimeline_writes 40 0%nat oneMarkerState
           (Build_Marker (Build_BouncingOptions 15 52 true 12 52) 1%nat)
           (Build_BouncingMotion None None None None));
    [reflexivity|reflexivity|simpl; lia|simpl; lia|].
  intros _. simpl. lia.
Defined.

(** * Further properties of the helpers *)

(** ** Trajectory builder: the other fill loops *)

Lemma icon_move_points_array (x y : Q) (bounceHeight : Z) (fuel : nat) :
  -1 ≤ bounceHeight → (Z.to_nat (bounceHeight + 1) < fuel)%nat →
  calculateIconMovePoints fuel x y bounceHeight
  = Done ((λ i, Some (x, (y - inject_Z i)%Q)) <$> seqZ 0 (bounceHeight + 1)).
Proof.
  intros Hbh Hfuel. unfold calculateIconMovePoints.
  rewrite (while_countdown (λ dH p, array_set p dH (x, (y - inject_Z dH)%Q)))
    by lia.
  by rewrite descend_array_set_empty, Z2Nat.id by lia.
Qed.

Lemma icon_move_transforms_array (Number_toString : Q → string) (x y : Q)
    (bounceHeight : Z) (fuel : nat) :
  -1 ≤ bounceHeight → (Z.to_nat (bounceHeight + 1) < fuel)%nat →
  calculateIconMoveTransforms Number_toString fuel x y bounceHeight
  = Done ((λ i, Some (moveTransform Number_toString x (y - inject_Z i)%Q))
            <$> seqZ 0 (bounceHeight + 1)).
Proof.
  intros Hbh Hfuel. unfold calculateIconMoveTransforms.
  rewrite (while_countdown
             (λ dY t, array_set t dY
                        (moveTransform Number_toString x (y - inject_Z dY)%Q)))
    by lia.
  by rewrite descend_array_set_empty, Z2Nat.id by lia.
Qed.

(** X2. For every [bounceHeight >= 0], [calculateIconMovePoints] returns
    [bounceHeight + 1] points, and point [i] is [(x, y - i)]: the icon rises
    one pixel an index. *)
Theorem calculateIconMovePoints_entries (x y : Q) (bounceHeight : Z)
    (fuel : nat) :
  0 ≤ bounceHeight → (Z.to_nat bounceHeight + 2 ≤ fuel)%nat →
  ∃ p, calculateIconMovePoints fuel x y bounceHeight = Done p
     ∧ Z.of_nat (length p) = bounceHeight + 1
     ∧ ∀ i, 0 ≤ i ≤ bounceHeight →
         array_get p i = Some (x, (y - inject_Z i)%Q).
Proof.
  intros Hbh Hfuel. rewrite icon_move_points_array by lia.
  eexists. split; [done|].
  split; [rewrite length_fmap, length_seqZ; lia|].
  intros i Hi. replace i with (Z.of_nat (Z.to_nat i)) at 1 by lia.
  rewrite array_get_lookup, list_lookup_fmap, lookup_seqZ_lt by lia.
  simpl. by rewrite Z.add_0_l, Z2Nat.id by lia.
Qed.

Lemma calculateIconMovePoints_entries_witness :
  0 ≤ 3 ∧ (Z.to_nat 3 + 2 ≤ 5)%nat
  ∧ ∃ p, calculateIconMovePoints 5 10 20 3 = Done p
       ∧ Z.of_nat (length p) = 3 + 1
       ∧ ∀ i, 0 ≤ i ≤ 3 → array_get p i = Some (10, (20 - inject_Z i))%Q.
Proof.
  split; [lia|]. split; [simpl; lia|].
  apply (calculateIconMovePoints_entries 10 20 3 5); [lia|simpl; lia].
Defined.

(** X3. The three functions that fill their array with [while (dH--)] from
    [height + 1] do not return when the height is below -1: the counter
    starts negative and never reaches 0. *)
Theorem fill_loops_hang_below_minus_one (Number_toString : Q → string)
    (x y : Q) (originalHeight height : Z) :
  height < -1 →
  never_returns (λ fuel, calculateIconMovePoints fuel x y height)
  ∧ never_returns
      (λ fuel, calculateIconMoveTransforms Number_toString fuel x y height)
  ∧ never_returns
      (λ fuel, calculateIconResizeTransforms Number_toString fuel x y
                 originalHeight height).
Proof.
  intros Hheight. split; [|split]; intros fuel.
  - unfold calculateIconMovePoints.
    by rewrite (while_countdown_negative
                  (λ dH p, array_set p dH (x, (y - inject_Z dH)%Q))) by lia.
  - unfold calculateIconMoveTransforms.
    by rewrite (while_countdown_negative
                  (λ dY t, array_set t dY
                             (moveTransform Number_toString x
                                (y - inject_Z dY)%Q))) by lia.
  - unfold calculateIconResizeTransforms.
    by rewrite (while_countdown_negative
                  (λ dH t, array_set t dH
                             (resizeTransform Number_toString x y
                                originalHeight dH))) by lia.
Qed.

Lemma fill_loops_hang_below_minus_one_witness :
  -2 < -1 ∧ never_returns (λ fuel, calculateIconMovePoints fuel 10 20 (-2)).
Proof.
  split; [lia|].
  apply (fill_loops_hang_below_minus_one (λ _, "") 10 20 1 (-2)). lia.
Defined.

(** X4. For every [bounceHeight >= 0], [calculateIconMoveTransforms] returns
    one transform for each point of [calculateIconMovePoints], in the same
    order: transform [i] is the text that moves to point [i] and scales by
    1. *)
Theorem calculateIconMoveTransforms_render_points
    (Number_toString : Q → string) (x y : Q) (bounceHeight : Z) (fuel : nat) :
  0 ≤ bounceHeight → (Z.to_nat bounceHeight + 2 ≤ fuel)%nat →
  ∃ p, calculateIconMovePoints fuel x y bounceHeight = Done p
     ∧ calculateIconMoveTransforms Number_toString fuel x y bounceHeight
       = Done (renderPoints Number_toString p)
     ∧ Z.of_nat (length p) = bounceHeight + 1.
Proof.
  intros Hbh Hfuel.
  rewrite icon_move_points_array, icon_move_transforms_array by lia.
  eexists. split; [done|]. unfold renderPoints.
  rewrite <- list_fmap_compose.
  split; [done|]. rewrite length_fmap, length_seqZ. lia.
Qed.

Lemma calculateIconMoveTransforms_render_points_witness :
  let show := λ q : Q, pretty (Qnum q) +:+ "/" +:+ pretty (Z.pos (Qden q)) in
  0 ≤ 3 ∧ (Z.to_nat 3 + 2 ≤ 5)%nat
  ∧ ∃ p, calculateIconMovePoints 5 10 20 3 = Done p
       ∧ calculateIconMoveTransforms show 5 10 20 3
         = Done (renderPoints show p)
       ∧ Z.of_nat (length p) = 3 + 1.
Proof.
  intros show. split; [lia|]. split; [simpl; lia|].
  apply (calculateIconMoveTransforms_render_points show 10 20 3 5);
    [lia|simpl; lia].
Defined.

(** ** Trajectory builder: the transforms of the shadow *)

Section ShadowTransforms.

Variable Number_toString : Q → string.

(** Over an array [p] without holes the loop at lines 206-210 renders every
    point and does not throw. *)
Lemma shadow_transform_loop (p : list (option point)) (n : nat) :
  ∀ (t : list (option string)) (fuel : nat),
    (n ≤ length p)%nat → Forall is_Some p → (n < fuel)%nat →
    loop fuel (shadowTransformStep Number_toString p) (Z.of_nat n, t)
    = Done (inr (descend
                   (λ i t,
                      array_set t i
                        (match array_get p i with
                         | Some pt => moveTransform Number_toString pt.1 pt.2
                         | None => ""
                         end)) n t)).
Proof.
  induction n as [|n IH]; intros t fuel Hlen Hsome Hfuel;
    (destruct fuel as [|fuel]; [lia|]).
  - reflexivity.
  - cbn [loop descend]. unfold shadowTransformStep at 1.
    replace (truthy (Z.of_nat (S n))) with true
      by (unfold truthy; symmetry; apply negb_true_iff, Z.eqb_neq; lia).
    replace (Z.of_nat (S n) - 1) with (Z.of_nat n) by lia.
    destruct (lookup_lt_is_Some_2 p n ltac:(lia)) as [slot Hslot].
    destruct (proj1 (Forall_lookup _ _) Hsome _ _ Hslot) as [pt ->].
    rewrite array_get_lookup, Hslot. simpl mjoin. cbv iota beta.
    apply IH; [lia|done|lia].
Qed.

Lemma shadow_transforms_of_points (p : list (option point)) (fuel : nat) :
  Forall is_Some p → (length p < fuel)%nat →
  loop fuel (shadowTransformStep Number_toString p)
    (Z.of_nat (length p), [])
  = Done (inr (renderPoints Number_toString p)).
Proof.
  intros Hsome Hfuel. rewrite shadow_transform_loop by done.
  do 2 f_equal. rewrite descend_array_set_empty.
  apply list_eq. intros j. unfold renderPoints. rewrite !list_lookup_fmap.
  destruct (p !! j) as [slot|] eqn:Hslot.
  - rewrite lookup_seqZ_lt by (apply lookup_lt_Some in Hslot; lia).
    simpl. rewrite Z.add_0_l, array_get_lookup, Hslot.
    by destruct (proj1 (Forall_lookup _ _) Hsome _ _ Hslot) as [pt ->].
  - by rewrite lookup_seqZ_ge by (apply lookup_ge_None in Hslot; lia).
Qed.

End ShadowTransforms.

(** X5. For every [bounceHeight >= 0] and every angle, [null] included,
    [calculateShadowMoveTransforms] returns one transform for each point
    that [calculateShadowMovePoints] returns for the same arguments, in the
    same order: the text that moves to that point and scales by 1. *)
Theorem calculateShadowMoveTransforms_render_points
    (Number_toString : Q → string) (x y : Q) (bounceHeight : Z)
    (a : option angle) (fuel : nat) :
  0 ≤ bounceHeight → (Z.to_nat bounceHeight + 2 ≤ fuel)%nat →
  ∃ p, calculateShadowMovePoints fuel x y bounceHeight a = Done p
     ∧ calculateShadowMoveTransforms Number_toString fuel x y bounceHeight a
       = Done (renderPoints Number_toString p)
     ∧ Z.of_nat (length p) = bounceHeight + 1.
Proof.
  intros Hbh Hfuel.
  assert (∃ p, calculateShadowMovePoints fuel x y bounceHeight a = Done p
             ∧ Z.of_nat (length p) = bounceHeight + 1
             ∧ Forall is_Some p) as (p & Hp & Hlen & Hsome).
  { destruct a as [a|].
    - unfold calculateShadowMovePoints, calculateLine. cbv zeta.
      match goal with
      | |- context [loop fuel (lineStep ?dx ?dy ?sx ?sy ?len) ?w] =>
          destruct (line_loop_emits dx dy sx sy len (Z.to_nat bounceHeight)
                      fuel w) as (q & -> & Hq & Hsome); [simpl; lia|lia|]
      end.
      eexists. split; [done|]. simpl. split; [lia|].
      constructor; [by eexists|done].
    - rewrite shadow_fixed_points by lia. eexists. split; [done|].
      rewrite length_replicate. split; [lia|].
      apply Forall_replicate. by eexists. }
  exists p. split; [done|]. split; [|done].
  unfold calculateShadowMoveTransforms. cbv zeta.
  unfold calculateShadowMovePoints in Hp. rewrite Hp.
  replace (bounceHeight + 1) with (Z.of_nat (length p)) by lia.
  by rewrite shadow_transforms_of_points by (done || lia).
Qed.

Lemma calculateShadowMoveTransforms_render_points_witness :
  let show := λ q : Q, pretty (Qnum q) +:+ "/" +:+ pretty (Z.pos (Qden q)) in
  0 ≤ 3 ∧ (Z.to_nat 3 + 2 ≤ 5)%nat
  ∧ ∃ p, calculateShadowMovePoints 5 10 20 3 (Some zeroAngle) = Done p
       ∧ calculateShadowMoveTransforms show 5 10 20 3 (Some zeroAngle)
         = Done (renderPoints show p)
       ∧ Z.of_nat (length p) = 3 + 1.
Proof.
  intros show. split; [lia|]. split; [simpl; lia|].
  apply (calculateShadowMoveTransforms_render_points show 10 20 3
           (Some zeroAngle) 5); [lia|simpl; lia].
Defined.

(** X6. With the angle [null] and a [bounceHeight] of -2 or less,
    [calculateShadowMoveTransforms] throws a [TypeError]: the array of points
    is empty and the first pass of the loop reads [p[dY][0]] at a negative
    index.  [calculateShadowMovePoints] returns the empty array for the same
    arguments. *)
Theorem calculateShadowMoveTransforms_throws (Number_toString : Q → string)
    (x y : Q) (bounceHeight : Z) (fuel : nat) :
  bounceHeight ≤ -2 → (1 ≤ fuel)%nat →
  calculateShadowMoveTransforms Number_toString fuel x y bounceHeight None
    = Threw TypeError
  ∧ calculateShadowMovePoints fuel x y bounceHeight None = Done [].
Proof.
  intros Hbh Hfuel. destruct fuel as [|fuel]; [lia|].
  unfold calculateShadowMoveTransforms, calculateShadowMovePoints. cbv zeta.
  rewrite (while_countup (λ i, i <=? bounceHeight)
             (λ i p, array_set p i (x, y)) 0);
    [|intros k Hk; lia|apply Z.leb_gt; lia|lia].
  cbn [ascend]. split; [|done].
  cbn [loop]. unfold shadowTransformStep.
  replace (truthy (bounceHeight + 1)) with true
    by (unfold truthy; symmetry; apply negb_true_iff, Z.eqb_neq; lia).
  unfold array_get.
  by replace (bounceHeight + 1 - 1 <? 0) with true
    by (symmetry; apply Z.ltb_lt; lia).
Qed.

Lemma calculateShadowMoveTransforms_throws_witness :
  -2 ≤ -2 ∧ (1 ≤ 1)%nat
  ∧ calculateShadowMoveTransforms (λ _, "") 1 10 20 (-2) None = Threw TypeError
  ∧ calculateShadowMovePoints 1 10 20 (-2) None = Done [].
Proof.
  split; [lia|]. split; [lia|].
  apply (calculateShadowMoveTransforms_throws (λ _, "") 10 20 (-2) 1); lia.
Defined.

(** ** Line rasterizer: the line is connected *)

Section LineSteps.

Variables (dx dy sx sy : Q) (len : Z).

Lemma lineStep_continue_near (w : walk) :
  wi w + 1 ≠ len →
  ∃ x' y' err',
    lineStep dx dy sx sy len w
    = inl (Walk x' y' err' (wp w ++ [Some (wx w, wy w)]) (wi w + 1))
    ∧ (x' = wx w ∨ x' = (wx w + sx)%Q)
    ∧ (y' = wy w ∨ y' = (wy w + sy)%Q).
Proof.
  intros Hne. unfold lineStep, push.
  replace (wi w + 1 =? len) with false by (symmetry; by apply Z.eqb_neq).
  destruct (Qltb (- dx) (werr w)); destruct (Qltb (werr w) dy);
    eexists _, _, _; (split; [reflexivity|]); auto.
Qed.

Lemma line_loop_stepwise (n : nat) :
  ∀ (fuel : nat) (w : walk),
    wi w + Z.of_nat (S n) = len → (S n ≤ fuel)%nat →
    ∃ q, loop fuel (lineStep dx dy sx sy len) w
         = Done (wp w ++ Some (wx w, wy w) :: q)
       ∧ stepwise sx sy (wx w, wy w) q.
Proof.
  induction n as [|n IH]; intros fuel w Hi Hfuel;
    (destruct fuel as [|fuel]; [lia|]); cbn [loop].
  - rewrite lineStep_break by lia. by exists [].
  - destruct (lineStep_continue_near w) as (x' & y' & err' & -> & Hx & Hy);
      [lia|].
    destruct (IH fuel (Walk x' y' err' (wp w ++ [Some (wx w, wy w)]) (wi w + 1)))
      as (q & -> & Hq); [simpl; lia|lia|].
    exists (Some (x', y') :: q). simpl. rewrite <- app_assoc.
    by repeat split.
Qed.

End LineSteps.

(** X7. For [len >= 1] the points of [calculateLine] form a connected line
    that never turns back: there are unit steps [sx] and [sy], each 1 or -1,
    such that from every point to the next x stays or moves by [sx] and y
    stays or moves by [sy]. *)
Theorem calculateLine_connected (x y : Q) (a : angle) (len : Z) (fuel : nat) :
  1 ≤ len → (Z.to_nat len ≤ fuel)%nat →
  ∃ sx sy q,
    (sx = 1 ∨ sx = -1 # 1)%Q ∧ (sy = 1 ∨ sy = -1 # 1)%Q
    ∧ calculateLine fuel x y a len = Done (Some (x, y) :: q)
    ∧ stepwise sx sy (x, y) q.
Proof.
  intros Hlen Hfuel. unfold calculateLine. cbv zeta.
  match goal with
  | |- context [loop fuel (lineStep ?dx ?dy ?sx ?sy len) ?w] =>
      destruct (line_loop_stepwise dx dy sx sy len (Z.to_nat len - 1) fuel w)
        as (q & -> & Hq); [simpl; lia|lia|];
      exists sx, sy, q
  end.
  split; [by destruct (Qltb x _); auto|].
  split; [by destruct (Qltb y _); auto|].
  by split.
Qed.

Lemma calculateLine_connected_witness :
  1 ≤ 5 ∧ (Z.to_nat 5 ≤ 5)%nat
  ∧ ∃ sx sy q,
      (sx = 1 ∨ sx = -1 # 1)%Q ∧ (sy = 1 ∨ sy = -1 # 1)%Q
      ∧ calculateLine 5 0 0 zeroAngle 5 = Done (Some (0, 0)%Q :: q)
      ∧ stepwise sx sy (0, 0)%Q q.
Proof.
  split; [lia|]. split; [simpl; lia|].
  apply (calculateLine_connected 0 0 zeroAngle 5 5); [lia|simpl; lia].
Defined.

(** ** Timing engine: the cache and the heap *)

Lemma bind_Done_inv {A B : Type} (m : M A) (k : A → M B) (s s2 : state) (b : B) :
  bind m k s = Done (b, s2) →
  ∃ a s1, m s = Done (a, s1) ∧ k a s1 = Done (b, s2).
Proof.
  unfold bind. destruct (m s) as [[a s1]| |]; [|done..]. intros Hk.
  by exists a, s1.
Qed.

Lemma grows_refl (s : state) : grows s s.
Proof. by split. Qed.

Lemma grows_trans (s1 s2 s3 : state) : grows s1 s2 → grows s2 s3 → grows s1 s3.
Proof. intros [Ha1 Hc1] [Ha2 Hc2]. split; by etrans. Qed.

Lemma bind_grows {A B : Type} (m : M A) (k : A → M B) (s s2 : state) (b : B) :
  (∀ a s1, m s = Done (a, s1) → grows s s1) →
  (∀ a s1, m s = Done (a, s1) → k a s1 = Done (b, s2) → grows s1 s2) →
  bind m k s = Done (b, s2) → grows s s2.
Proof.
  intros Hm Hk Hrun. apply bind_Done_inv in Hrun as (a & s1 & Hrun1 & Hrun2).
  eapply grows_trans; eauto.
Qed.

Lemma calculateSteps_grows (fuel : nat) (height : Z) (prefix : string)
    (s s' : state) (r : ref) :
  calculateSteps fuel height prefix s = Done (r, s') → grows s s'.
Proof.
  intros Hrun.
  destruct (bouncingMotionsCache s !! stepsKey height prefix) as [r0|] eqn:Hkey.
  - rewrite (calculateSteps_hit _ _ _ _ r0) in Hrun by done.
    injection Hrun as <- <-. apply grows_refl.
  - destruct (calculateSteps_miss_shape _ _ _ _ _ _ Hkey Hrun) as (a & -> & ->).
    split; simpl; [by apply prefix_app_r|by apply insert_subseteq].
Qed.

Lemma calculateDelays_grows (fuel : nat) (height speed : Z) (prefix : string)
    (s s' : state) (r : ref) :
  calculateDelays fuel height speed prefix s = Done (r, s') → grows s s'.
Proof.
  intros Hrun.
  destruct (bouncingMotionsCache s !! delaysKey height speed prefix) as [r0|]
    eqn:Hkey.
  - rewrite (calculateDelays_hit _ _ _ _ _ r0) in Hrun by done.
    injection Hrun as <- <-. apply grows_refl.
  - destruct (calculateDelays_miss_shape _ _ _ _ _ _ _ Hkey Hrun)
      as (a & -> & ->).
    split; simpl; [by apply prefix_app_r|by apply insert_subseteq].
Qed.

Lemma setMotion_grows (marker : ref) (set : BouncingMotion → BouncingMotion)
    (s s' : state) (u : unit) :
  setMotion marker set s = Done (u, s') → grows s s'.
Proof.
  unfold setMotion. destruct (markers s !! marker) as [m|]; [|done].
  destruct (motions s !! _bouncingMotion m) as [bm|]; [|done].
  intros [= <- <-]. by split.
Qed.

Lemma calculateTimeline_grows (fuel : nat) (marker : ref) (s s' : state)
    (r : ref) :
  calculateTimeline fuel marker s = Done (r, s') → grows s s'.
Proof.
  unfold calculateTimeline. intros Hrun.
  apply bind_Done_inv in Hrun as (o & s0 & Hget & Hrun).
  unfold getOptions in Hget. destruct (markers s !! marker); [|done].
  injection Hget as <- <-.
  apply bind_Done_inv in Hrun as (r1 & s1 & H1%calculateSteps_grows & Hrun).
  apply bind_Done_inv in Hrun as (u2 & s2 & H2%setMotion_grows & Hrun).
  apply bind_Done_inv in Hrun as (r3 & s3 & H3%calculateDelays_grows & Hrun).
  apply bind_Done_inv in Hrun as (u4 & s4 & H4%setMotion_grows & Hrun).
  assert (grows s s4) as Hmove by eauto using grows_trans.
  destruct (elastic _).
  - apply bind_Done_inv in Hrun as (r5 & s5 & H5%calculateSteps_grows & Hrun).
    apply bind_Done_inv in Hrun as (u6 & s6 & H6%setMotion_grows & Hrun).
    apply bind_Done_inv in Hrun as (r7 & s7 & H7%calculateDelays_grows & Hrun).
    apply bind_Done_inv in Hrun as (u8 & s8 & H8%setMotion_grows & Hrun).
    injection Hrun as <- <-. eauto 6 using grows_trans.
  - by injection Hrun as <- <-.
Qed.

(** ** The helpers with the maximum length of an array *)

Section BoundedTiming.

Variable maxLength : nat.

Lemma bounded_calculateSteps_hit (fuel : nat) (height : Z) (prefix : string)
    (s : state) (r : ref) :
  bouncingMotionsCache s !! stepsKey height prefix = Some r →
  Bounded.calculateSteps maxLength fuel height prefix s = Done (r, s).
Proof.
  intros Hhit. unfold Bounded.calculateSteps, bind, cacheGet, stepsKey in *.
  by rewrite Hhit.
Qed.

Lemma bounded_calculateSteps_negative (fuel : nat) (height : Z)
    (prefix : string) (s : state) :
  height < 0 →
  bouncingMotionsCache s !! stepsKey height prefix = None →
  Bounded.calculateSteps maxLength fuel height prefix s
  = if (maxLength <? fuel)%nat then Threw RangeError else OutOfFuel.
Proof.
  intros Hheight Hmiss.
  unfold Bounded.calculateSteps, bind, cacheGet, stepsKey in *. rewrite Hmiss.
  destruct fuel as [|fuel]; [done|].
  unfold Bounded.while at 1. cbn [loop].
  replace (1 <=? height) with false by (symmetry; apply Z.leb_gt; lia).
  cbn [pure].
  rewrite (bounded_countdown_fills maxLength (λ i, Some i)) by done.
  simpl length. rewrite Nat.sub_0_r.
  by destruct (maxLength <? S fuel)%nat.
Qed.

Lemma calculateSteps_agrees (fuel : nat) (height : Z) (prefix : string)
    (s : state) :
  0 ≤ height → 2 * height ≤ Z.of_nat maxLength →
  Bounded.calculateSteps maxLength fuel height prefix s
  = calculateSteps fuel height prefix s.
Proof.
  intros Hheight Hmax.
  unfold Bounded.calculateSteps, calculateSteps, bind, cacheGet.
  destruct (bouncingMotionsCache s !! _); [done|].
  set (Inv1 := λ st : Z * list (option Z),
         1 ≤ st.1 ≤ height + 1 ∧ Z.of_nat (length st.2) = st.1 - 1).
  rewrite (bounded_while_agrees _
             (λ '(i, steps), (i + 1, push steps (Some i))) _ Inv1);
    [| |by unfold Inv1; simpl; lia].
  2:{ intros [i steps] s1 [Hi Hlen] [= Hle <-]. simpl in *.
      apply Z.leb_le in Hle. unfold Bounded.push, push.
      replace (length steps <? maxLength)%nat with true
        by (symmetry; apply Nat.ltb_lt; lia).
      split; [done|]. unfold Inv1. simpl. rewrite length_app. simpl. lia. }
  destruct (while fuel _ _ (1, [])) as [[i steps]|e|] eqn:H1; cbn [pure];
    [|done|done].
  apply (while_exit _ _ Inv1) in H1
    as ([i0 steps0] & [Hi Hlen] & [= Hgt <- <-]);
    [| |by unfold Inv1; simpl; lia].
  2:{ intros [j a] s1 [Hj Hlen] [= Hle <-]. apply Z.leb_le in Hle.
      unfold Inv1, push in *. simpl in *. rewrite length_app. simpl. lia. }
  apply Z.leb_gt in Hgt. simpl in Hi, Hlen.
  set (Inv2 := λ st : Z * list (option Z),
         0 ≤ st.1 ≤ height ∧ Z.of_nat (length st.2) = 2 * height - st.1).
  rewrite (bounded_while_agrees _
             (λ '(i, steps), (i, push steps (Some i))) _ Inv2);
    [done| |by unfold Inv2; simpl; lia].
  intros [j a] s1 [Hj Hlena] [= Hne <-]. simpl in *.
  apply truthy_true in Hne. unfold Bounded.push, push.
  replace (length a <? maxLength)%nat with true
    by (symmetry; apply Nat.ltb_lt; lia).
  split; [done|]. unfold Inv2. simpl. rewrite length_app. simpl. lia.
Qed.

Lemma bounded_calculateDelays_nonpositive (height speed : Z) (prefix : string)
    (s : state) :
  height ≤ 0 →
  bouncingMotionsCache s !! delaysKey height speed prefix = None →
  never_returns
    (λ fuel, Bounded.calculateDelays maxLength fuel height speed prefix s).
Proof.
  intros Hheight Hmiss fuel.
  unfold Bounded.calculateDelays, bind, cacheGet, delaysKey in *. rewrite Hmiss.
  by rewrite (while_predecrement_nonpositive
                (λ i deltas,
                   array_set deltas i
                     (Math_round (inject_Z speed / inject_Z (height - i)))))
    by done.
Qed.

Lemma calculateDelays_agrees (fuel : nat) (height speed : Z) (prefix : string)
    (s : state) :
  2 * height + 1 ≤ Z.of_nat maxLength →
  Bounded.calculateDelays maxLength fuel height speed prefix s
  = calculateDelays fuel height speed prefix s.
Proof.
  intros Hmax.
  unfold Bounded.calculateDelays, calculateDelays, bind, cacheGet.
  destruct (bouncingMotionsCache s !! _); [done|]. cbv zeta.
  set (deltas0 := array_set (array_set [] height speed) 0 0).
  set (Inv1 := λ st : Z * list (option Z),
         st.1 ≤ height ∧ Z.of_nat (length st.2) = Z.max height 0 + 1).
  assert (Inv1 (height, deltas0)) as Hinv0.
  { unfold Inv1, deltas0, array_set. simpl.
    destruct (height <? 0) eqn:Hneg.
    - apply Z.ltb_lt in Hneg. simpl. lia.
    - apply Z.ltb_ge in Hneg. simpl. rewrite Nat.sub_0_r.
      destruct (Z.to_nat height) as [|n] eqn:Hn; simpl.
      + lia.
      + rewrite length_app, length_replicate. simpl. lia. }
  destruct (while fuel _ _ (height, deltas0)) as [[i deltas]|e|] eqn:H1;
    cbn [pure]; [|done|done].
  apply (while_exit _ _ Inv1) in H1
    as ([i0 d0] & [Hi Hlen] & [= Hzero <- <-]); [| |done].
  2:{ intros [j a] s1 [Hj Hlena] [= Hne <-]. unfold Inv1 in *. simpl in *.
      split; [lia|]. rewrite array_set_length; lia. }
  unfold truthy in Hzero. apply negb_false_iff, Z.eqb_eq in Hzero.
  simpl in Hi, Hlen.
  set (Inv2 := λ st : Z * list (option Z),
         0 ≤ st.1 ≤ height
         ∧ Z.of_nat (length st.2) = 2 * height + 1 - st.1).
  rewrite (bounded_while_agrees _
             (λ '(i, deltas), (i, push deltas (array_get deltas i))) _ Inv2);
    [| |by unfold Inv2; simpl; lia].
  2:{ intros [j a] s1 [Hj Hlena] [= Hne <-]. simpl in *.
      apply truthy_true in Hne. unfold Bounded.push, push.
      replace (length a <? maxLength)%nat with true
        by (symmetry; apply Nat.ltb_lt; lia).
      split; [done|]. unfold Inv2. simpl. rewrite length_app. simpl. lia. }
  destruct (while fuel _ _ (height, d0)) as [[j deltas]|e|] eqn:H2;
    cbn [pure]; [|done|done].
  apply (while_exit _ _ Inv2) in H2
    as ([j0 d1] & [Hj Hlen1] & [= Hj0 <- <-]);
    [| |by unfold Inv2; simpl; lia].
  2:{ intros [k a] s1 [Hk Hlena] [= Hne <-]. apply truthy_true in Hne.
      unfold Inv2, push in *. simpl in *. rewrite length_app. simpl. lia. }
  unfold truthy in Hj0. apply negb_false_iff, Z.eqb_eq in Hj0.
  simpl in Hj, Hlen1.
  set (Inv3 := λ st : Z * (option Z * list (option Z)),
         0 ≤ st.1 ∧ Z.of_nat (length st.2.2) = st.1).
  rewrite (bounded_while_agrees _
             (λ '(i, (totalDelay, delays)),
                let totalDelay := add totalDelay (array_get d1 i) in
                (i + 1, (totalDelay, push delays totalDelay))) _ Inv3);
    [done| |by unfold Inv3; simpl; lia].
  intros [k [t a]] s1 [Hk Hlena] [= Hlt <-]. simpl in *.
  apply Z.ltb_lt in Hlt. unfold Bounded.push, push.
  replace (length a <? maxLength)%nat with true
    by (symmetry; apply Nat.ltb_lt; lia).
  split; [done|]. unfold Inv3. simpl. rewrite length_app. simpl. lia.
Qed.

End BoundedTiming.

(** X8. On a cache miss [calculateSteps] returns for every [height >= 0]
    whose [2 * height] steps fit in an array.  For [height < 0] it never
    returns: the loop [while (i--)] starts below 0 and pushes on every pass,
    so the first [maxLength] passes fill the array and the next push ends
    the call with a [RangeError]. *)
Theorem calculateSteps_returns_or_fills_array (maxLength : nat) (height : Z)
    (prefix : string) (s : state) :
  bouncingMotionsCache s !! stepsKey height prefix = None →
  (0 ≤ height → 2 * height ≤ Z.of_nat maxLength →
   ∀ fuel, (Z.to_nat height < fuel)%nat →
     ∃ r s', Bounded.calculateSteps maxLength fuel height prefix s
             = Done (r, s'))
  ∧ (height < 0 →
     ∀ fuel, Bounded.calculateSteps maxLength fuel height prefix s
             = if (maxLength <? fuel)%nat then Threw RangeError
               else OutOfFuel).
Proof.
  intros Hmiss. split.
  - intros Hheight Hmax fuel Hfuel. rewrite calculateSteps_agrees by done.
    by apply calculateSteps_returns.
  - intros Hheight fuel. by apply bounded_calculateSteps_negative.
Qed.

Lemma calculateSteps_returns_or_fills_array_witness :
  bouncingMotionsCache freshState !! stepsKey (-1) "moveSteps_" = None
  ∧ Bounded.calculateSteps 4 4 (-1) "moveSteps_" freshState = OutOfFuel
  ∧ Bounded.calculateSteps 4 5 (-1) "moveSteps_" freshState
    = Threw RangeError.
Proof.
  split; [reflexivity|].
  destruct (calculateSteps_returns_or_fills_array 4 (-1) "moveSteps_"
              freshState) as [_ Hneg]; [reflexivity|].
  split; [apply (Hneg ltac:(lia) 4%nat)|apply (Hneg ltac:(lia) 5%nat)].
Defined.

(** X9. A call of [calculateSteps], [calculateDelays] or [calculateTimeline]
    that returns has changed no array that was in the heap and no entry that
    was in the cache: the heap before is a prefix of the heap after, and the
    cache before is included in the cache after. *)
Theorem calls_keep_cached_arrays (fuel : nat) (height speed : Z)
    (prefix : string) (marker : ref) (s s' : state) (r : ref) :
  calculateSteps fuel height prefix s = Done (r, s')
  ∨ calculateDelays fuel height speed prefix s = Done (r, s')
  ∨ calculateTimeline fuel marker s = Done (r, s') →
  grows s s'
  ∧ ∀ key r0 a,
      bouncingMotionsCache s !! key = Some r0 → arrays s !! r0 = Some a →
      bouncingMotionsCache s' !! key = Some r0 ∧ arrays s' !! r0 = Some a.
Proof.
  intros Hrun.
  assert (grows s s') as Hgrows.
  { destruct Hrun as [Hrun|[Hrun|Hrun]];
      eauto using calculateSteps_grows, calculateDelays_grows,
        calculateTimeline_grows. }
  split; [done|]. destruct Hgrows as [[k Hk] Hsub]. intros key r0 a Hkey Ha.
  split; [by eapply lookup_weaken|].
  rewrite Hk. by apply lookup_app_l_Some.
Qed.

Lemma calls_keep_cached_arrays_witness :
  ∃ s1 r1 s2 r2,
    calculateSteps 8 3 "moveSteps_" freshState = Done (r1, s1)
    ∧ calculateDelays 8 3 52 "moveDelays_" s1 = Done (r2, s2)
    ∧ grows s1 s2.
Proof.
  destruct (calculateSteps_returns 8 3 "moveSteps_" freshState)
    as (r1 & s1 & H1); [lia|simpl; lia|].
  destruct (calculateDelays_returns 8 3 52 "moveDelays_" s1)
    as (r2 & s2 & H2); [lia|simpl; lia|].
  exists s1, r1, s2, r2. split; [exact H1|]. split; [exact H2|].
  apply (calls_keep_cached_arrays 8 3 52 "moveDelays_" 0%nat s1 s2 r2).
  right. left. exact H2.
Defined.

(** ** Timing engine: the shape of the tables *)

Lemma Math_round_nonnegative (q : Q) : (0 <= q)%Q → 0 ≤ Math_round q.
Proof.
  intros Hq. unfold Math_round.
  change 0 with (Qfloor 0). apply Qfloor_resp_le.
  apply Qle_trans with q; [done|].
  rewrite <- (Qplus_0_r q) at 1. by apply Qplus_le_r.
Qed.

Lemma delta_nonnegative (height speed i : Z) :
  0 ≤ speed → i ≤ height → 0 ≤ delta height speed i.
Proof.
  intros Hspeed Hi. unfold delta.
  destruct (Z.eqb_spec i height) as [|Hne]; [done|].
  destruct (i =? 0); [done|].
  apply Math_round_nonnegative. apply Qle_shift_div_l.
  - unfold Qlt. simpl. lia.
  - rewrite Qmult_0_l. unfold Qle. simpl. lia.
Qed.

Lemma deltaSequence_nonnegative (height speed : Z) :
  0 ≤ speed → Forall (λ d, 0 ≤ d) (deltaSequence height speed).
Proof.
  intros Hspeed. unfold deltaSequence.
  apply Forall_app. split; apply Forall_fmap, Forall_forall; intros i Hi.
  - apply elem_of_seqZ in Hi. apply delta_nonnegative; lia.
  - apply elem_of_reverse, elem_of_seqZ in Hi. apply delta_nonnegative; lia.
Qed.

Lemma cumulativeSums_nondecreasing (ds : list Z) :
  Forall (λ d, 0 ≤ d) ds →
  ∀ (total : Z) (i : nat) (a b : Z),
    cumulativeSums total ds !! i = Some a →
    cumulativeSums total ds !! S i = Some b → a ≤ b.
Proof.
  induction 1 as [|d ds Hd Hds IH]; intros total i a b Ha Hb; [done|].
  destruct i as [|i].
  - destruct Hds as [|d' ds Hd' _]; [done|].
    simpl in Ha, Hb. injection Ha as <-. injection Hb as <-. lia.
  - simpl in Ha, Hb. by eapply IH.
Qed.

(** X10. For [height >= 1] and a speed that is not negative, the delay
    table computed on a cache miss starts at 0 and never decreases from an
    entry to the next. *)
Theorem calculateDelays_nondecreasing (fuel : nat) (height speed : Z)
    (prefix : string) (s : state) :
  1 ≤ height → 0 ≤ speed → (Z.to_nat (2 * height + 1) < fuel)%nat →
  bouncingMotionsCache s !! delaysKey height speed prefix = None →
  ∃ delays,
    returned (calculateDelays fuel height speed prefix s)
    = Some (Some <$> delays)
    ∧ delays !! 0%nat = Some 0
    ∧ ∀ (i : nat) (a b : Z),
        delays !! i = Some a → delays !! S i = Some b → a ≤ b.
Proof.
  intros Hheight Hspeed Hfuel Hmiss.
  rewrite calculateDelays_miss, returned_fresh by (done || lia).
  eexists. split; [done|]. split.
  - unfold deltaSequence.
    rewrite (seqZ_cons 0 (height + 1)) by lia. simpl. unfold delta.
    rewrite (proj2 (Z.eqb_neq 0 height)) by lia. done.
  - by apply cumulativeSums_nondecreasing, deltaSequence_nonnegative.
Qed.

Lemma calculateDelays_nondecreasing_witness :
  1 ≤ 3 ∧ 0 ≤ 5 ∧ (Z.to_nat (2 * 3 + 1) < 8)%nat
  ∧ ∃ delays,
      returned (calculateDelays 8 3 5 "moveDelays_" freshState)
      = Some (Some <$> delays)
      ∧ delays !! 0%nat = Some 0
      ∧ ∀ (i : nat) (a b : Z),
          delays !! i = Some a → delays !! S i = Some b → a ≤ b.
Proof.
  split; [lia|]. split; [lia|]. split; [simpl; lia|].
  apply (calculateDelays_nondecreasing 8 3 5 "moveDelays_" freshState);
    [lia|lia|simpl; lia|reflexivity].
Defined.

(** X11. Every step that [calculateSteps] computes for a height is an index
    of the array [calculateIconMovePoints] returns for the same height: the
    steps lie between 0 and [height], and the array has a point at each of
    them. *)
Theorem steps_index_the_points (fuel : nat) (height : Z) (prefix : string)
    (s : state) (x y : Q) :
  0 ≤ height → (Z.to_nat height + 2 ≤ fuel)%nat →
  bouncingMotionsCache s !! stepsKey height prefix = None →
  ∃ steps p,
    returned (calculateSteps fuel height prefix s) = Some steps
    ∧ calculateIconMovePoints fuel x y height = Done p
    ∧ ∀ slot, slot ∈ steps →
        ∃ n, slot = Some n ∧ 0 ≤ n ≤ height
           ∧ array_get p n = Some (x, (y - inject_Z n)%Q).
Proof.
  intros Hheight Hfuel Hmiss.
  rewrite calculateSteps_miss, returned_fresh by (done || lia).
  rewrite icon_move_points_array by lia.
  eexists _, _. split; [done|]. split; [done|].
  intros slot (n & -> & Hn)%list_elem_of_fmap. exists n.
  assert (0 ≤ n ≤ height) as Hrange.
  { unfold stepSequence in Hn. apply elem_of_app in Hn as [Hn|Hn].
    - apply elem_of_seqZ in Hn. lia.
    - apply elem_of_reverse, elem_of_seqZ in Hn. lia. }
  split; [done|]. split; [done|].
  replace n with (Z.of_nat (Z.to_nat n)) at 1 by lia.
  rewrite array_get_lookup, list_lookup_fmap, lookup_seqZ_lt by lia.
  simpl. by rewrite Z.add_0_l, Z2Nat.id by lia.
Qed.

Lemma steps_index_the_points_witness :
  0 ≤ 3 ∧ (Z.to_nat 3 + 2 ≤ 5)%nat
  ∧ ∃ steps p,
      returned (calculateSteps 5 3 "moveSteps_" freshState) = Some steps
      ∧ calculateIconMovePoints 5 10 20 3 = Done p
      ∧ ∀ slot, slot ∈ steps →
          ∃ n, slot = Some n ∧ 0 ≤ n ≤ 3
             ∧ array_get p n = Some (10, (20 - inject_Z n))%Q.
Proof.
  split; [lia|]. split; [simpl; lia|].
  apply (steps_index_the_points 5 3 "moveSteps_" freshState 10 20);
    [lia|simpl; lia|reflexivity].
Defined.

(** ** The timeline of a marker: repeated and degenerate calls *)

Lemma setMotion_same (marker : ref) (set : BouncingMotion → BouncingMotion)
    (s : state) (m : Marker) (bm : BouncingMotion) :
  markers s !! marker = Some m →
  motions s !! _bouncingMotion m = Some bm →
  set bm = bm →
  setMotion marker set s = Done (tt, s).
Proof.
  intros Hm Hbm Hset. rewrite (setMotion_run _ _ _ m bm) by done.
  rewrite Hset, insert_id by done. by destruct s.
Qed.

(** X12. A second call of [calculateTimeline] for the same marker, right
    after a call that returned, finds all it needs in the cache: it returns
    the marker and leaves the whole state, the fields of the marker
    included, as the first call left it. *)
Theorem calculateTimeline_idempotent (fuel fuel' : nat) (marker : ref)
    (s s' : state) (m : Marker) (bm : BouncingMotion) (r : ref) :
  markers s !! marker = Some m →
  motions s !! _bouncingMotion m = Some bm →
  calculateTimeline fuel marker s = Done (r, s') →
  calculateTimeline fuel' marker s' = Done (marker, s').
Proof.
  intros Hm Hbm Hrun.
  destruct (calculateTimeline_effect _ _ _ _ _ _ _ Hm Hbm Hrun)
    as (_ & Hmk & bm' & Hmo & Hms & [r1 Hr1] & Hmd & [r2 Hr2] & Hresize).
  assert (markers s' !! marker = Some m) as Hm' by congruence.
  assert (motions s' !! _bouncingMotion m = Some bm') as Hbm'
    by (by rewrite Hmo, lookup_insert_eq).
  unfold calculateTimeline, bind, getOptions, ret. rewrite Hm'.
  rewrite (calculateSteps_hit _ _ _ _ r1) by congruence.
  rewrite (setMotion_same _ _ _ m bm') by (done || (destruct bm'; simpl in *; congruence)).
  rewrite (calculateDelays_hit _ _ _ _ _ r2) by congruence.
  rewrite (setMotion_same _ _ _ m bm') by (done || (destruct bm'; simpl in *; congruence)).
  destruct (elastic (_bouncingOptions m)); [|done].
  destruct Hresize as (Hrs & [r3 Hr3] & Hrd & [r4 Hr4]).
  rewrite (calculateSteps_hit _ _ _ _ r3) by congruence.
  rewrite (setMotion_same _ _ _ m bm') by (done || (destruct bm'; simpl in *; congruence)).
  rewrite (calculateDelays_hit _ _ _ _ _ r4) by congruence.
  by rewrite (setMotion_same _ _ _ m bm')
    by (done || (destruct bm'; simpl in *; congruence)).
Qed.

Lemma calculateTimeline_idempotent_witness :
  ∃ s', calculateTimeline 40 0%nat oneMarkerState = Done (0%nat, s')
      ∧ calculateTimeline 0 0%nat s' = Done (0%nat, s').
Proof.
  pose (mk := Build_Marker (Build_BouncingOptions 15 52 true 12 52) 1%nat).
  pose (bm := Build_BouncingMotion None None None None).
  assert (markers oneMarkerState !! 0%nat = Some mk) as Hm by reflexivity.
  assert (motions oneMarkerState !! _bouncingMotion mk = Some bm) as Hbm
    by reflexivity.
  destruct (calculateTimeline_returns 40 0%nat oneMarkerState mk bm Hm Hbm)
    as (r & s' & Hrun); [simpl; lia|simpl; lia|intros _; simpl; lia|].
  destruct (calculateTimeline_effect _ _ _ _ _ _ _ Hm Hbm Hrun) as [-> _].
  exists s'. split; [exact Hrun|].
  exact (calculateTimeline_idempotent 40 0 0%nat oneMarkerState s' mk bm _
           Hm Hbm Hrun).
Defined.

(** X13. For a marker whose [bounceHeight] is 0 or less, when no delay table
    is cached for its height and speed, [calculateTimeline] never returns.
    At height 0, or with the steps of the height cached, it reaches
    [calculateDelays], whose first loop does not exit.  At a height below 0
    with no steps cached, [calculateSteps] fills its array and the call ends
    with the [RangeError] of the push on the full array. *)
Theorem calculateTimeline_never_returns_without_height (maxLength : nat)
    (marker : ref) (s : state) (m : Marker) (bm : BouncingMotion) :
  markers s !! marker = Some m →
  motions s !! _bouncingMotion m = Some bm →
  bounceHeight (_bouncingOptions m) ≤ 0 →
  bouncingMotionsCache s
    !! delaysKey (bounceHeight (_bouncingOptions m))
         (bounceSpeed (_bouncingOptions m)) "moveDelays_" = None →
  (bounceHeight (_bouncingOptions m) = 0
   ∨ is_Some (bouncingMotionsCache s
                !! stepsKey (bounceHeight (_bouncingOptions m)) "moveSteps_") →
   never_returns (λ fuel, Bounded.calculateTimeline maxLength fuel marker s))
  ∧ (bounceHeight (_bouncingOptions m) < 0 →
     bouncingMotionsCache s
       !! stepsKey (bounceHeight (_bouncingOptions m)) "moveSteps_" = None →
     ∀ fuel, Bounded.calculateTimeline maxLength fuel marker s
             = if (maxLength <? fuel)%nat then Threw RangeError
               else OutOfFuel).
Proof.
  intros Hm Hbm Hbh Hmiss.
  set (o := _bouncingOptions m) in *. split.
  - intros Hcase fuel.
    unfold Bounded.calculateTimeline, bind, getOptions, ret. rewrite Hm.
    fold o.
    destruct (bouncingMotionsCache s !! stepsKey (bounceHeight o) "moveSteps_")
      as [r|] eqn:Hsteps.
    + rewrite (bounded_calculateSteps_hit _ _ _ _ _ r) by done.
      rewrite (setMotion_run marker _ s m bm) by done.
      by rewrite bounded_calculateDelays_nonpositive.
    + destruct Hcase as [Hzero|[r Hr]]; [|done].
      rewrite calculateSteps_agrees by lia.
      destruct fuel as [|fuel].
      { unfold calculateSteps, bind, cacheGet, stepsKey in *.
        by rewrite Hsteps. }
      rewrite calculateSteps_miss by (done || lia).
      rewrite (setMotion_run marker _ _ m bm) by done.
      rewrite bounded_calculateDelays_nonpositive; [done|done|].
      simpl. rewrite lookup_insert_ne; [done|].
      unfold delaysKey, stepsKey. simpl. intros [=].
  - intros Hneg Hsteps fuel.
    unfold Bounded.calculateTimeline, bind, getOptions, ret. rewrite Hm.
    fold o. rewrite bounded_calculateSteps_negative by done.
    by destruct (maxLength <? fuel)%nat.
Qed.

Lemma calculateTimeline_never_returns_without_height_witness :
  let s := λ height,
             State ∅ []
               {[ 1%nat := Build_BouncingMotion None None None None ]}
               {[ 0%nat := Build_Marker
                             (Build_BouncingOptions height 52 false 12 52)
                             1%nat ]} in
  never_returns (λ fuel, Bounded.calculateTimeline 4 fuel 0%nat (s 0))
  ∧ Bounded.calculateTimeline 4 4 0%nat (s (-1)) = OutOfFuel
  ∧ Bounded.calculateTimeline 4 5 0%nat (s (-1)) = Threw RangeError.
Proof.
  intros s.
  destruct (calculateTimeline_never_returns_without_height 4 0%nat (s 0)
              (Build_Marker (Build_BouncingOptions 0 52 false 12 52) 1%nat)
              (Build_BouncingMotion None None None None)) as [Hzero _];
    [reflexivity|reflexivity|simpl; lia|reflexivity|].
  destruct (calculateTimeline_never_returns_without_height 4 0%nat (s (-1))
              (Build_Marker (Build_BouncingOptions (-1) 52 false 12 52) 1%nat)
              (Build_BouncingMotion None None None None)) as [_ Hneg];
    [reflexivity|reflexivity|simpl; lia|reflexivity|].
  split; [apply Hzero; by left|].
  split; [apply (Hneg ltac:(simpl; lia) eq_refl 4%nat)
         |apply (Hneg ltac:(simpl; lia) eq_refl 5%nat)].
Defined.

(** ** Style text: the matches of [regStyle] *)

Import Stdlib.Strings.Ascii.
Import Css.

Section Matching.

Context {R : Type}.

Lemma strip_app (lit s : text) : strip lit (lit ++ s) = Some s.
Proof.
  induction lit as [|c lit IH]; [done|]. simpl.
  by rewrite Ascii.eqb_refl.
Qed.

Lemma strip_inv (lit s s' : text) : strip lit s = Some s' → s = lit ++ s'.
Proof.
  revert s. induction lit as [|c lit IH]; intros s; simpl.
  - by intros [= ->].
  - destruct s as [|d s]; [done|].
    destruct (Ascii.eqb_spec c d) as [->|]; [|done].
    intros Hs. by rewrite (IH _ Hs).
Qed.

(** The longest run is the one taken when what follows it matches. *)
Lemma star_greedy (class : Ascii.ascii → bool) (pre s : text)
    (k : text → option R) (r : R) :
  Forall (λ c, class c = true) pre →
  (∀ c s', s = c :: s' → class c = false) →
  k s = Some r →
  star class (pre ++ s) k = Some r.
Proof.
  intros Hpre Hstop Hk. induction Hpre as [|c pre Hc Hpre IH]; simpl.
  - destruct s as [|c s']; simpl; [done|]. by rewrite (Hstop c s').
  - by rewrite Hc, IH.
Qed.

(** Whatever run is taken, it is a run of the class. *)
Lemma star_inv (class : Ascii.ascii → bool) (s : text) (k : text → option R)
    (r : R) :
  star class s k = Some r →
  ∃ pre s', s = pre ++ s' ∧ Forall (λ c, class c = true) pre ∧ k s' = Some r.
Proof.
  induction s as [|c s IH]; simpl.
  - intros Hk. by exists [], [].
  - destruct (class c) eqn:Hc; [|intros Hk; by exists [], (c :: s)].
    destruct (star class s k) as [r'|] eqn:Hstar.
    + intros [= ->]. destruct (IH eq_refl) as (pre & s' & -> & Hpre & Hk).
      exists (c :: pre), s'. split; [done|]. split; [by constructor|done].
    + intros Hk. by exists [], (c :: s).
Qed.

End Matching.

Lemma consumed_app (k s : text) : consumed (k ++ s) s = k.
Proof.
  unfold consumed. rewrite length_app.
  replace (length k + length s - length s)%nat with (length k) by lia.
  by rewrite take_app_length.
Qed.

(** A declaration, from the first character of its key: [regStyle] matches
    it whole and captures the key and the value. *)
Lemma regStyle_matches (k v rest : text) :
  keyText k → valueText v →
  matchAt regStyle (k ++ chars ": " ++ v ++ chars ";" ++ rest) []
    (λ s' caps, Some (caps, s'))
  = Some ([k; v], rest).
Proof.
  intros [Hk0 Hk] [Hv0 Hv].
  destruct k as [|c k]; [done|]. destruct v as [|d v]; [done|].
  apply Forall_cons in Hk as [Hc Hk]. apply Forall_cons in Hv as [Hd Hv].
  cbn [regStyle matchAt app]. rewrite Hc.
  apply star_greedy; [done|by intros ? ? [= <- <-]|].
  rewrite (strip_app (chars ": ")). rewrite Hd.
  apply star_greedy; [done|by intros ? ? [= <- <-]|].
  rewrite (strip_app (chars ";")).
  change (c :: k ++ chars ": " ++ d :: v ++ chars ";" ++ rest)
    with ((c :: k) ++ chars ": " ++ d :: v ++ chars ";" ++ rest).
  change (d :: v ++ chars ";" ++ rest) with ((d :: v) ++ chars ";" ++ rest).
  by rewrite !consumed_app.
Qed.

(** Every match of [regStyle] is a key, a colon and a space, a value and a
    semicolon. *)
Lemma regStyle_match_inv (s rest : text) (caps : list text) :
  matchAt regStyle s [] (λ s' caps, Some (caps, s')) = Some (caps, rest) →
  ∃ k v, keyText k ∧ valueText v
       ∧ s = k ++ chars ": " ++ v ++ chars ";" ++ rest ∧ caps = [k; v].
Proof.
  cbn [regStyle matchAt]. destruct s as [|c s]; [done|].
  destruct (wordOrHyphen c) eqn:Hc; [|done].
  intros (k & s1 & -> & Hk & Hrest)%star_inv.
  destruct (strip (chars ": ") s1) as [s2|] eqn:Hstrip; [|done].
  apply strip_inv in Hstrip as ->.
  destruct s2 as [|d s2]; [done|].
  destruct (notSemicolon d) eqn:Hd; [|done].
  apply star_inv in Hrest as (v & s3 & -> & Hv & Hrest).
  destruct (strip (chars ";") s3) as [s4|] eqn:Hstrip; [|done].
  apply strip_inv in Hstrip as ->. injection Hrest as <- ->.
  exists (c :: k), (d :: v).
  split; [split; [done|by constructor]|].
  split; [split; [done|by constructor]|].
  split; [done|].
  f_equal; [exact (consumed_app (c :: k) _)|].
  f_equal. exact (consumed_app (d :: v) _).
Qed.

Lemma search_inv (s start rest : text) (caps : list text) :
  search regStyle s = Some (start, caps, rest) →
  ∃ skipped k v,
    keyText k ∧ valueText v ∧ s = skipped ++ start
    ∧ start = k ++ chars ": " ++ v ++ chars ";" ++ rest ∧ caps = [k; v].
Proof.
  induction s as [|c s IH]; cbn [search].
  - destruct (matchAt regStyle [] [] _) as [[caps' s']|] eqn:Hmatch; [|done].
    intros [= <- <- <-].
    destruct (regStyle_match_inv _ _ _ Hmatch) as (k & v & ? & ? & ? & ?).
    by exists [], k, v.
  - destruct (matchAt regStyle (c :: s) [] _) as [[caps' s']|] eqn:Hmatch.
    + intros [= <- <- <-].
      destruct (regStyle_match_inv _ _ _ Hmatch) as (k & v & ? & ? & ? & ?).
      by exists [], k, v.
    + intros (skipped & k & v & ? & ? & -> & ? & ?)%IH.
      by exists (c :: skipped), k, v.
Qed.

(** What [exec] answers: a match that ends after [lastIndex], within the
    text, with a key and a value; or no match and [lastIndex] 0. *)
Lemma exec_regStyle (s : text) (lastIndex : nat) :
  match exec regStyle s lastIndex with
  | (Some m, lastIndex') =>
      (lastIndex < lastIndex' ≤ length s)%nat
      ∧ ∃ whole k v, m = [whole; k; v] ∧ keyText k ∧ valueText v
  | (None, lastIndex') => lastIndex' = 0%nat
  end.
Proof.
  unfold exec. destruct (Nat.ltb_spec (length s) lastIndex) as [|Hle]; [done|].
  destruct (search regStyle (drop lastIndex s)) as [[[start caps] rest]|]
    eqn:Hsearch; [|done].
  apply search_inv in Hsearch
    as (skipped & k & v & Hk & Hv & Hs & -> & ->).
  split; [|by eexists _, _, _].
  assert (length (drop lastIndex s)
          = length (skipped ++ k ++ chars ": " ++ v ++ chars ";" ++ rest))
    as Hlen by (by rewrite Hs).
  rewrite length_drop, !length_app in Hlen. simpl in Hlen.
  destruct Hk as [Hk _]. destruct k; [done|]. simpl in *. lia.
Qed.

(** ** Style text: the objects that are built *)

Lemma replaceValue_keys (o : object) (key value : text) :
  (replaceValue o key value).*1 = o.*1.
Proof.
  induction o as [|[k v] o IH]; [done|]. cbn [replaceValue].
  case_bool_decide; [done|]. rewrite !fmap_cons. by rewrite IH.
Qed.

Lemma replaceValue_Forall (o : object) (key value : text) :
  valueText value →
  Forall (λ p, keyText p.1 ∧ valueText p.2) o →
  Forall (λ p, keyText p.1 ∧ valueText p.2) (replaceValue o key value).
Proof.
  intros Hvalue. induction 1 as [|[k v] o [Hk Hv] Ho IH]; [done|]. simpl.
  case_bool_decide; by constructor.
Qed.

Lemma insertIndex_Permutation (o : object) (n : N) (key value : text) :
  insertIndex o n key value ≡ₚ (key, value) :: o.
Proof.
  induction o as [|[k v] o IH]; [done|]. simpl.
  destruct (arrayIndex k) as [m|]; [|done].
  destruct (m <? n)%N; [|done]. rewrite IH. apply Permutation_swap.
Qed.

Lemma setProperty_fresh (o : object) (key value : text) :
  key ∉ o.*1 → arrayIndex key = None → key ≠ chars "__proto__" →
  setProperty o key value = o ++ [(key, value)].
Proof.
  intros Hfresh Hindex Hproto. unfold setProperty, hasKey.
  rewrite bool_decide_eq_false_2 by done.
  rewrite bool_decide_eq_false_2 by done. by rewrite Hindex.
Qed.

Lemma setProperty_styleObject (o : object) (key value : text) :
  styleObject o → keyText key → valueText value →
  styleObject (setProperty o key value).
Proof.
  intros (Ho & Hdup & Hproto) Hkey Hvalue. unfold setProperty, hasKey.
  case_bool_decide as Hp; [done|]. case_bool_decide as Hin.
  - unfold styleObject. rewrite replaceValue_keys.
    by auto using replaceValue_Forall.
  - assert (setPropertyNew :
             ∀ o', o' ≡ₚ (key, value) :: o → styleObject o').
    { intros o' Hperm. symmetry in Hperm.
      pose proof (fmap_Permutation fst _ _ Hperm) as Hkeys.
      rewrite fmap_cons in Hkeys. cbn [fst] in Hkeys.
      split; [|split].
      - apply (Permutation_Forall Hperm). by constructor.
      - apply (NoDup_Permutation_proper _ _ Hkeys). by constructor.
      - intros Hin'. apply (elem_of_Permutation_proper _ _ _ Hkeys) in Hin'.
        apply elem_of_cons in Hin' as [Heq|Hin']; [|done].
        by apply Hp. }
    destruct (arrayIndex key) as [n|]; apply setPropertyNew.
    + apply insertIndex_Permutation.
    + by rewrite Permutation_app_comm.
Qed.

(** ** Style text: [parseCssText] returns *)

Section ParseLoop.

Variable cssText : text.

Lemma parse_loop_returns (n : nat) :
  ∀ (fuel : nat) (sd : object) (m : option (list text)) (lastIndex : nat),
    styleObject sd →
    match m with
    | Some arr =>
        (∃ whole k v, arr = [whole; k; v] ∧ keyText k ∧ valueText v)
        ∧ (lastIndex ≤ length cssText)%nat
        ∧ (length cssText - lastIndex < n)%nat
    | None => lastIndex = 0%nat
    end →
    (n < fuel)%nat →
    ∃ sd', while fuel parseTest (parseBody cssText) (sd, m, lastIndex) = Done (sd', None, 0%nat)
         ∧ styleObject sd'.
Proof.
  induction n as [|n IH]; intros fuel sd m lastIndex Hsd Hm Hfuel;
    (destruct fuel as [|fuel]; [lia|]); unfold while in *; cbn [loop].
  - destruct m as [arr|]; [lia|]. subst lastIndex. by exists sd.
  - destruct m as [arr|]; [|subst lastIndex; by exists sd].
    destruct Hm as ((whole & k & v & -> & Hk & Hv) & Hle & Hlt).
    cbn [parseTest parseBody bool_decide decide_rel]. simpl matchGroup.
    rewrite bool_decide_eq_true_2 by (by eexists).
    pose proof (exec_regStyle cssText lastIndex) as Hexec.
    destruct (exec regStyle cssText lastIndex) as [m' lastIndex'].
    apply IH; [by apply setProperty_styleObject| |lia].
    destruct m' as [arr'|]; [|done].
    destruct Hexec as [Hrange Harr]. split; [done|]. lia.
Qed.

End ParseLoop.

Lemma parseCssText_result (fuel : nat) (cssText : text) (lastIndex : nat) :
  (length cssText + 2 ≤ fuel)%nat →
  ∃ o, parseCssText fuel cssText lastIndex = Done (o, 0%nat) ∧ styleObject o.
Proof.
  intros Hfuel. unfold parseCssText.
  pose proof (exec_regStyle cssText lastIndex) as Hexec.
  destruct (exec regStyle cssText lastIndex) as [m lastIndex'].
  destruct (parse_loop_returns cssText (length cssText + 1) fuel [] m lastIndex')
    as (o & Hrun & Ho).
  - split; [done|]. split; [constructor|]. by apply not_elem_of_nil.
  - destruct m as [arr|]; [|done].
    destruct Hexec as [Hrange Harr]. split; [done|]. lia.
  - lia.
  - exists o. cbv zeta in *. by rewrite Hrun.
Qed.

(** X14. [parseCssText] returns for every text, and it leaves the
    [lastIndex] of [regStyle] at 0 whatever it was before: the next call
    searches its text from the start. *)
Theorem parseCssText_resets_lastIndex (fuel : nat) (cssText : text)
    (lastIndex : nat) :
  (length cssText + 2 ≤ fuel)%nat →
  ∃ o, parseCssText fuel cssText lastIndex = Done (o, 0%nat).
Proof.
  intros Hfuel.
  destruct (parseCssText_result fuel cssText lastIndex Hfuel) as (o & Hrun & _).
  by exists o.
Qed.

Lemma parseCssText_resets_lastIndex_witness :
  (length (chars "color: red;") + 2 ≤ 13)%nat
  ∧ ∃ o, parseCssText 13 (chars "color: red;") 4 = Done (o, 0%nat).
Proof.
  split; [simpl; lia|].
  apply (parseCssText_resets_lastIndex 13 (chars "color: red;") 4).
  simpl; lia.
Defined.

(** X15. In the object [parseCssText] returns every key is made of letters,
    digits, underscores and hyphens and is not empty, every value is not
    empty and has no semicolon, no key occurs twice, and [__proto__] is not
    a key. *)
Theorem parseCssText_styleObject (fuel : nat) (cssText : text)
    (lastIndex lastIndex' : nat) (o : object) :
  parseCssText fuel cssText lastIndex = Done (o, lastIndex') →
  styleObject o.
Proof.
  intros Hrun.
  destruct (parseCssText_result (fuel + length cssText + 2) cssText lastIndex)
    as (o' & Hrun' & Ho'); [lia|].
  enough (o' = o) as <- by done.
  unfold parseCssText in *.
  destruct (exec regStyle cssText lastIndex) as [m li].
  unfold while in *.
  destruct (loop fuel _ _) as [[[sd m1] li1]| |] eqn:Hloop; [|done..].
  apply (loop_fuel_mono _ _ (fuel + length cssText + 2)) in Hloop; [|lia].
  rewrite Hloop in Hrun'. congruence.
Qed.

Lemma parseCssText_styleObject_witness :
  ∃ o, parseCssText 13 (chars "color: red;") 0 = Done (o, 0%nat)
     ∧ styleObject o.
Proof.
  destruct (parseCssText_result 13 (chars "color: red;") 0) as (o & Hrun & _);
    [simpl; lia|].
  exists o. split; [exact Hrun|].
  exact (parseCssText_styleObject 13 (chars "color: red;") 0 0 o Hrun).
Defined.

Lemma search_needs_semicolon (s : text) :
  ";"%char ∉ s → search regStyle s = None.
Proof.
  intros Hs.
  destruct (search regStyle s) as [[[start caps] rest]|] eqn:Hsearch; [|done].
  apply search_inv in Hsearch as (skipped & k & v & _ & _ & -> & -> & _).
  exfalso. apply Hs. rewrite !elem_of_app. do 4 right. left. by left.
Qed.

(** X16. A text without a semicolon has no declaration for [parseCssText]:
    the object returned is empty.  (A declaration counts only when a
    semicolon ends it.) *)
Theorem parseCssText_without_semicolon (fuel : nat) (cssText : text)
    (lastIndex : nat) :
  ";"%char ∉ cssText → (1 ≤ fuel)%nat →
  parseCssText fuel cssText lastIndex = Done ([], 0%nat).
Proof.
  intros Hs Hfuel. unfold parseCssText, exec.
  destruct (length cssText <? lastIndex)%nat;
    [by destruct fuel; [lia|]|].
  rewrite search_needs_semicolon; [by destruct fuel; [lia|]|].
  intros Hin. apply Hs. by apply (subseteq_drop lastIndex cssText).
Qed.

Lemma parseCssText_without_semicolon_witness :
  (";"%char ∉ chars "color: red") ∧ (1 ≤ 1)%nat
  ∧ parseCssText 1 (chars "color: red") 0 = Done ([], 0%nat).
Proof.
  assert (";"%char ∉ chars "color: red") as Hs.
  { intros Hin. apply list_elem_of_In in Hin. simpl in Hin.
    repeat (destruct Hin as [Hin|Hin]; [discriminate Hin|]). exact Hin. }
  split; [exact Hs|]. split; [lia|].
  exact (parseCssText_without_semicolon 1 (chars "color: red") 0 Hs
           (le_n 1)).
Defined.

(** ** Style text: rendering and parsing back *)

Lemma getProperty_elem (o : object) (key value : text) :
  NoDup o.*1 → (key, value) ∈ o → getProperty o key = Some value.
Proof.
  induction o as [|[k v] o IH]; intros Hdup Hin.
  - by apply elem_of_nil in Hin.
  - rewrite fmap_cons in Hdup. apply NoDup_cons in Hdup as [Hk Hdup].
    cbn [getProperty]. apply elem_of_cons in Hin as [[= -> ->]|Hin].
    + by rewrite bool_decide_eq_true_2.
    + rewrite bool_decide_eq_false_2; [by apply IH|].
      intros ->. apply Hk. apply list_elem_of_fmap. by exists (key, value).
Qed.

(** [renderCssText] writes the declarations of the properties one after the
    other. *)
Lemma renderCssText_declarations (o : object) :
  NoDup o.*1 → renderCssText o = concat (declaration <$> o).
Proof.
  intros Hdup. unfold renderCssText.
  enough (∀ (o' : object) (acc : text),
            (∀ p, p ∈ o' → p ∈ o) →
            foldl
              (λ cssText key,
                 cssText
                 ++ (key ++ chars ": "
                     ++ default (chars "undefined") (getProperty o key)
                     ++ chars "; "))
              acc o'.*1
            = acc ++ concat (declaration <$> o')) as Hfold
    by (by rewrite Hfold).
  induction o' as [|[k v] o' IH]; intros acc Hsub.
  - by rewrite app_nil_r.
  - rewrite !fmap_cons. cbn [foldl concat fst].
    rewrite IH by (intros p Hp; apply Hsub; by right).
    rewrite (getProperty_elem o k v) by (done || apply Hsub; by left).
    by rewrite <- app_assoc.
Qed.

Lemma search_here (s rest : text) (caps : list text) :
  matchAt regStyle s [] (λ s' caps, Some (caps, s')) = Some (caps, rest) →
  search regStyle s = Some (s, caps, rest).
Proof. intros Hmatch. destruct s; cbn [search]; by rewrite Hmatch. Qed.

(** The search finds a declaration that starts at once, or after the space
    [renderCssText] puts behind the semicolon before it. *)
Lemma search_declaration (sp k v rest : text) :
  sp = [] ∨ sp = chars " " → keyText k → valueText v →
  search regStyle (sp ++ k ++ chars ": " ++ v ++ chars ";" ++ rest)
  = Some (k ++ chars ": " ++ v ++ chars ";" ++ rest, [k; v], rest).
Proof.
  intros [->| ->] Hk Hv.
  - by apply search_here, regStyle_matches.
  - cbn [chars String.list_ascii_of_string app search].
    replace (matchAt regStyle (" "%char :: _) [] _)
      with (@None (list text * text)) by done.
    by apply search_here, regStyle_matches.
Qed.

Lemma exec_declaration (pre sp k v rest : text) :
  sp = [] ∨ sp = chars " " → keyText k → valueText v →
  ∃ whole,
    exec regStyle (pre ++ sp ++ k ++ chars ": " ++ v ++ chars ";" ++ rest)
      (length pre)
    = (Some [whole; k; v],
       length (pre ++ sp ++ k ++ chars ": " ++ v ++ chars ";")).
Proof.
  intros Hsp Hk Hv. unfold exec.
  rewrite (proj2 (Nat.ltb_ge _ _)) by (rewrite length_app; lia).
  rewrite drop_app_length, search_declaration by done.
  eexists. f_equal. rewrite !length_app. lia.
Qed.

Section RoundTrip.

Variable cssText : text.

Lemma declarations_loop (ds : list (text * text)) :
  ∀ (pre sp : text) (sd : object) (fuel : nat),
    sp = [] ∨ sp = chars " " →
    cssText = pre ++ sp ++ concat (declaration <$> ds) →
    Forall (λ p, keyText p.1 ∧ valueText p.2) ds →
    (length ds < fuel)%nat →
    (let '(m, lastIndex) := exec regStyle cssText (length pre) in
     while fuel parseTest (parseBody cssText) (sd, m, lastIndex))
    = Done (foldl (λ o p, setProperty o p.1 p.2) sd ds, None, 0%nat).
Proof.
  unfold while.
  induction ds as [|[k v] ds IH]; intros pre sp sd fuel Hsp Htext Hds Hfuel;
    (destruct fuel as [|fuel]; [simpl in Hfuel; lia|]).
  - assert (exec regStyle cssText (length pre) = (None, 0%nat)) as ->.
    { rewrite Htext. unfold exec.
      rewrite (proj2 (Nat.ltb_ge _ _)) by (rewrite length_app; lia).
      rewrite drop_app_length. by destruct Hsp as [->| ->]. }
    done.
  - apply Forall_cons in Hds as [[Hk Hv] Hds].
    assert (cssText
            = pre ++ sp ++ k ++ chars ": " ++ v ++ chars ";"
                ++ chars " " ++ concat (declaration <$> ds)) as Htext'.
    { rewrite Htext, fmap_cons. cbn [concat]. unfold declaration at 1.
      cbn [fst snd]. by rewrite <- !app_assoc. }
    destruct (exec_declaration pre sp k v
                (chars " " ++ concat (declaration <$> ds)) Hsp Hk Hv)
      as [whole Hexec].
    rewrite <- Htext' in Hexec. rewrite Hexec. clear Hexec.
    cbn [loop parseTest parseBody foldl]. rewrite bool_decide_eq_true_2 by (by eexists).
    change (matchGroup (Some [whole; k; v]) 1) with k.
    change (matchGroup (Some [whole; k; v]) 2) with v.
    pose proof (IH (pre ++ sp ++ k ++ chars ": " ++ v ++ chars ";")
                  (chars " ") (setProperty sd k v) fuel) as IH'.
    destruct (exec regStyle cssText
                (length (pre ++ sp ++ k ++ chars ": " ++ v ++ chars ";")))
      as [m' lastIndex'].
    apply IH'.
    + by right.
    + by rewrite Htext', <- !app_assoc.
    + done.
    + simpl in Hfuel. lia.
Qed.

End RoundTrip.

(** [parseCssText] on a text made of declarations sets the properties in
    the order of the text. *)
Lemma parseCssText_declarations (ds : list (text * text)) (fuel : nat) :
  Forall (λ p, keyText p.1 ∧ valueText p.2) ds →
  (length ds < fuel)%nat →
  parseCssText fuel (concat (declaration <$> ds)) 0
  = Done (foldl (λ o p, setProperty o p.1 p.2) [] ds, 0%nat).
Proof.
  intros Hds Hfuel. unfold parseCssText.
  pose proof (declarations_loop (concat (declaration <$> ds)) ds [] [] []
                fuel) as Hloop.
  cbn [length app] in Hloop. cbv zeta in *.
  destruct (exec regStyle (concat (declaration <$> ds)) 0) as [m lastIndex].
  by rewrite Hloop; [|by left|..].
Qed.

Lemma foldl_setProperty_fresh (o : object) :
  ∀ sd : object,
    NoDup (sd.*1 ++ o.*1) →
    Forall (λ p, arrayIndex p.1 = None ∧ p.1 ≠ chars "__proto__") o →
    foldl (λ o p, setProperty o p.1 p.2) sd o = sd ++ o.
Proof.
  induction o as [|[k v] o IH]; intros sd Hdup Ho.
  - by rewrite app_nil_r.
  - apply Forall_cons in Ho as [[Hindex Hproto] Ho].
    rewrite fmap_cons in Hdup. cbn [fst] in Hdup. cbn [foldl fst snd].
    rewrite setProperty_fresh;
      [|by apply NoDup_app in Hdup as (_ & Hdup & _);
           intros Hin; apply (Hdup _ Hin); left|done..].
    rewrite IH; [by rewrite <- app_assoc| |done].
    by rewrite fmap_app, <- app_assoc.
Qed.

(** X17. Parsing what [renderCssText] wrote gives the object back, in the
    same order, for an object whose keys are made of letters, digits,
    underscores and hyphens (other than [__proto__] and the array indices)
    and whose values are not empty and have no semicolon. *)
Theorem parseCssText_renderCssText (o : object) (fuel : nat) :
  NoDup o.*1 →
  Forall (λ p, keyText p.1 ∧ valueText p.2 ∧ arrayIndex p.1 = None
               ∧ p.1 ≠ chars "__proto__") o →
  (length o < fuel)%nat →
  parseCssText fuel (renderCssText o) 0 = Done (o, 0%nat).
Proof.
  intros Hdup Ho Hfuel.
  rewrite renderCssText_declarations, parseCssText_declarations by
    (done || (eapply Forall_impl; [exact Ho|]; by intros p (? & ? & _))).
  rewrite foldl_setProperty_fresh; [done..|].
  eapply Forall_impl; [exact Ho|]. by intros p (_ & _ & ? & ?).
Qed.

Lemma parseCssText_renderCssText_witness :
  let o := [(chars "color", chars "red"); (chars "margin-left", chars "3px")] in
  parseCssText 3 (renderCssText o) 0 = Done (o, 0%nat).
Proof.
  intros o.
  apply (parseCssText_renderCssText o 3); [| |simpl; lia].
  - apply NoDup_cons. split; [|apply NoDup_singleton].
    intros Hin. apply list_elem_of_singleton in Hin. discriminate Hin.
  - apply Forall_cons. split; [|apply Forall_cons; split; [|constructor]].
    + split; [split; [discriminate|cbn; repeat constructor]|].
      split; [split; [discriminate|cbn; repeat constructor]|].
      split; [reflexivity|discriminate].
    + split; [split; [discriminate|cbn; repeat constructor]|].
      split; [split; [discriminate|cbn; repeat constructor]|].
      split; [reflexivity|discriminate].
Defined.

(** ** Style text: a property declared more than once *)

Lemma getProperty_app (o : object) (key value key' : text) :
  getProperty (o ++ [(key, value)]) key'
  = match getProperty o key' with
    | Some x => Some x
    | None => if bool_decide (key = key') then Some value else None
    end.
Proof.
  induction o as [|[k v] o IH]; cbn [app getProperty]; [done|].
  destruct (bool_decide (k = key')); [done|apply IH].
Qed.

Lemma getProperty_None (o : object) (key : text) :
  key ∉ o.*1 → getProperty o key = None.
Proof.
  induction o as [|[k v] o IH]; [done|]. rewrite fmap_cons, not_elem_of_cons.
  intros [Hne Hin]. cbn [getProperty].
  rewrite bool_decide_eq_false_2 by (intros ->; by apply Hne). by apply IH.
Qed.

Lemma getProperty_replaceValue (o : object) (key value : text) :
  key ∈ o.*1 → getProperty (replaceValue o key value) key = Some value.
Proof.
  induction o as [|[k v] o IH]; [by intros ?%elem_of_nil|].
  rewrite fmap_cons, elem_of_cons. intros Hin. cbn [replaceValue fst].
  case_bool_decide as Hk; cbn [getProperty].
  - by rewrite bool_decide_eq_true_2.
  - rewrite bool_decide_eq_false_2 by done. apply IH.
    by destruct Hin as [->|].
Qed.

Lemma getProperty_replaceValue_ne (o : object) (key value key' : text) :
  key' ≠ key →
  getProperty (replaceValue o key value) key' = getProperty o key'.
Proof.
  intros Hne. induction o as [|[k v] o IH]; [done|]. cbn [replaceValue].
  case_bool_decide as Hk; cbn [getProperty].
  - subst k. by rewrite !bool_decide_eq_false_2 by done.
  - by rewrite IH.
Qed.

Lemma getProperty_insertIndex (o : object) (n : N) (key value : text) :
  key ∉ o.*1 → getProperty (insertIndex o n key value) key = Some value.
Proof.
  induction o as [|[k v] o IH]; cbn [insertIndex].
  - intros _. cbn. by rewrite bool_decide_eq_true_2.
  - rewrite fmap_cons, not_elem_of_cons. intros [Hne Hin].
    destruct (arrayIndex k) as [m|];
      [destruct (m <? n)%N|]; cbn [getProperty];
      rewrite ?(bool_decide_eq_true_2 (key = key)) by done; try done.
    rewrite bool_decide_eq_false_2 by (intros ->; by apply Hne). by apply IH.
Qed.

Lemma getProperty_insertIndex_ne (o : object) (n : N) (key value key' : text) :
  key' ≠ key →
  getProperty (insertIndex o n key value) key' = getProperty o key'.
Proof.
  intros Hne. induction o as [|[k v] o IH]; cbn [insertIndex].
  - cbn. by rewrite bool_decide_eq_false_2 by done.
  - destruct (arrayIndex k) as [m|];
      [destruct (m <? n)%N|]; cbn [getProperty];
      rewrite ?(bool_decide_eq_false_2 (key = key')) by done; try done.
    by rewrite IH.
Qed.

(** Reading a property that has just been set gives the value set. *)
Lemma getProperty_setProperty (o : object) (key value : text) :
  key ≠ chars "__proto__" →
  getProperty (setProperty o key value) key = Some value.
Proof.
  intros Hproto. unfold setProperty, hasKey.
  rewrite bool_decide_eq_false_2 by done. case_bool_decide as Hin.
  - by apply getProperty_replaceValue.
  - destruct (arrayIndex key) as [n|].
    + by apply getProperty_insertIndex.
    + rewrite getProperty_app, getProperty_None by done.
      by rewrite bool_decide_eq_true_2.
Qed.

(** Setting a property changes no other property. *)
Lemma getProperty_setProperty_ne (o : object) (key value key' : text) :
  key' ≠ key →
  getProperty (setProperty o key value) key' = getProperty o key'.
Proof.
  intros Hne. unfold setProperty, hasKey.
  case_bool_decide; [done|]. case_bool_decide.
  - by apply getProperty_replaceValue_ne.
  - destruct (arrayIndex key) as [n|].
    + by apply getProperty_insertIndex_ne.
    + rewrite getProperty_app. destruct (getProperty o key'); [done|].
      by rewrite bool_decide_eq_false_2 by done.
Qed.

Lemma getProperty_foldl (ds : list (text * text)) :
  ∀ (sd : object) (key : text),
    getProperty (foldl (λ o p, setProperty o p.1 p.2) sd ds) key
    = if bool_decide (key = chars "__proto__") then getProperty sd key
      else
        match getProperty (reverse ds) key with
        | Some value => Some value
        | None => getProperty sd key
        end.
Proof.
  induction ds as [|[k v] ds IH]; intros sd key.
  - cbn. by case_bool_decide.
  - cbn [foldl fst snd]. rewrite IH, reverse_cons, getProperty_app.
    case_bool_decide as Hproto.
    + destruct (decide (key = k)) as [->|Hne].
      * unfold setProperty. by rewrite bool_decide_eq_true_2.
      * by apply getProperty_setProperty_ne.
    + destruct (getProperty (reverse ds) key); [done|].
      case_bool_decide as Hk.
      * subst k. by apply getProperty_setProperty.
      * apply getProperty_setProperty_ne. by intros ->.
Qed.

(** X18. When a text made of declarations declares a property more than
    once, the object [parseCssText] returns has the value of the last of
    them: reading a key gives the value of the last declaration of that key,
    and nothing for a key that is not declared or is [__proto__]. *)
Theorem parseCssText_last_declaration_wins (ds : list (text * text))
    (fuel : nat) :
  Forall (λ p, keyText p.1 ∧ valueText p.2) ds →
  (length ds < fuel)%nat →
  ∃ o, parseCssText fuel (concat (declaration <$> ds)) 0 = Done (o, 0%nat)
     ∧ ∀ key,
         getProperty o key
         = if bool_decide (key = chars "__proto__") then None
           else getProperty (reverse ds) key.
Proof.
  intros Hds Hfuel. rewrite parseCssText_declarations by done.
  eexists. split; [done|]. intros key. rewrite getProperty_foldl.
  case_bool_decide; [done|]. by destruct (getProperty (reverse ds) key).
Qed.

Lemma parseCssText_last_declaration_wins_witness :
  let ds := [(chars "color", chars "red"); (chars "top", chars "1px");
             (chars "color", chars "blue")] in
  ∃ o, parseCssText 4 (concat (declaration <$> ds)) 0 = Done (o, 0%nat)
     ∧ getProperty o (chars "color") = Some (chars "blue").
Proof.
  intros ds.
  destruct (parseCssText_last_declaration_wins ds 4) as (o & Hrun & Hget);
    [|simpl; lia|].
  - repeat (apply Forall_cons; split; [|try constructor]);
      (split; (split; [discriminate|cbn; repeat constructor])).
  - exists o. split; [exact Hrun|]. exact (Hget (chars "color")).
Defined.

(** ** The helpers while their arrays fit *)

(** X19. A line of [len >= 1] points that fits in an array is computed
    without a push on a full array: with the maximum length of the runtime,
    [calculateLine] gives under every budget what it gives without one, and
    so do the two functions of the shadow for a bounce height of [len - 1],
    whatever the angle. *)
Theorem line_within_capacity (Number_toString : Q → string)
    (maxLength fuel : nat) (x y : Q) (a : angle) (shadowAngle : option angle)
    (len : Z) :
  1 ≤ len → len ≤ Z.of_nat maxLength →
  Bounded.calculateLine maxLength fuel x y a len = calculateLine fuel x y a len
  ∧ Bounded.calculateShadowMovePoints maxLength fuel x y (len - 1) shadowAngle
    = calculateShadowMovePoints fuel x y (len - 1) shadowAngle
  ∧ Bounded.calculateShadowMoveTransforms maxLength Number_toString fuel x y
      (len - 1) shadowAngle
    = calculateShadowMoveTransforms Number_toString fuel x y (len - 1)
        shadowAngle.
Proof.
  intros Hlen Hmax.
  assert (∀ a', Bounded.calculateLine maxLength fuel x y a' len
                = calculateLine fuel x y a' len) as Hline.
  { intros a'. unfold Bounded.calculateLine, calculateLine. cbv zeta.
    apply line_loop_within; simpl; [lia|done|done]. }
  split; [done|].
  unfold Bounded.calculateShadowMovePoints, calculateShadowMovePoints,
    Bounded.calculateShadowMoveTransforms, calculateShadowMoveTransforms.
  replace (len - 1 + 1) with len by lia.
  destruct shadowAngle as [a'|]; [|done]. by rewrite Hline.
Qed.

Lemma line_within_capacity_witness :
  1 ≤ 5 ∧ 5 ≤ Z.of_nat 5
  ∧ Bounded.calculateLine 5 5 0 0 zeroAngle 5 = calculateLine 5 0 0 zeroAngle 5
  ∧ Bounded.calculateShadowMovePoints 5 5 0 0 (5 - 1) (Some zeroAngle)
    = calculateShadowMovePoints 5 0 0 (5 - 1) (Some zeroAngle).
Proof.
  split; [lia|]. split; [simpl; lia|].
  destruct (line_within_capacity (λ _, EmptyString) 5 5 0 0 zeroAngle
              (Some zeroAngle) 5) as (Hline & Hpoints & _);
    [lia|simpl; lia|].
  by split.
Defined.

(** X20. For a height that is not negative and whose [2 * height + 1]
    delays fit in an array, no push of [calculateSteps] or of
    [calculateDelays] meets a full array: with the maximum length of the
    runtime the two functions give, under every budget and from every state,
    what they give without one. *)
Theorem timing_within_capacity (maxLength fuel : nat) (height speed : Z)
    (prefix : string) (s : state) :
  0 ≤ height → 2 * height + 1 ≤ Z.of_nat maxLength →
  Bounded.calculateSteps maxLength fuel height prefix s
  = calculateSteps fuel height prefix s
  ∧ Bounded.calculateDelays maxLength fuel height speed prefix s
    = calculateDelays fuel height speed prefix s.
Proof.
  intros Hheight Hmax. split.
  - apply calculateSteps_agrees; lia.
  - by apply calculateDelays_agrees.
Qed.

Lemma timing_within_capacity_witness :
  0 ≤ 3 ∧ 2 * 3 + 1 ≤ Z.of_nat 7
  ∧ Bounded.calculateSteps 7 8 3 "m_" freshState
    = calculateSteps 8 3 "m_" freshState
  ∧ Bounded.calculateDelays 7 8 3 5 "m_" freshState
    = calculateDelays 8 3 5 "m_" freshState.
Proof.
  split; [lia|]. split; [simpl; lia|].
  apply (timing_within_capacity 7 8 3 5 "m_" freshState); simpl; lia.
Defined.

(** X21. For a marker whose heights are not negative and whose tables fit
    in an array (the contraction height counts only under [elastic]),
    [calculateTimeline] meets no full array: with the maximum length of the
    runtime it gives, under every budget, what it gives without one. *)
Theorem calculateTimeline_within_capacity (maxLength fuel : nat)
    (marker : ref) (s : state) (m : Marker) :
  markers s !! marker = Some m →
  0 ≤ bounceHeight (_bouncingOptions m) →
  2 * bounceHeight (_bouncingOptions m) + 1 ≤ Z.of_nat maxLength →
  (elastic (_bouncingOptions m) = true →
   0 ≤ contractHeight (_bouncingOptions m)
   ∧ 2 * contractHeight (_bouncingOptions m) + 1 ≤ Z.of_nat maxLength) →
  Bounded.calculateTimeline maxLength fuel marker s
  = calculateTimeline fuel marker s.
Proof.
  intros Hm Hbh Hbmax Hel.
  unfold Bounded.calculateTimeline, calculateTimeline, bind, getOptions.
  rewrite Hm. set (o := _bouncingOptions m) in *.
  rewrite calculateSteps_agrees by lia.
  destruct (calculateSteps fuel _ _ s) as [[r1 s1]|e|]; [|done|done].
  destruct (setMotion marker _ s1) as [[u2 s2]|e|]; [|done|done].
  rewrite calculateDelays_agrees by lia.
  destruct (calculateDelays fuel _ _ _ s2) as [[r3 s3]|e|]; [|done|done].
  destruct (setMotion marker _ s3) as [[u4 s4]|e|]; [|done|done].
  destruct (elastic o); [|done].
  destruct Hel as [Hch Hcmax]; [done|].
  rewrite calculateSteps_agrees by lia.
  destruct (calculateSteps fuel _ _ s4) as [[r5 s5]|e|]; [|done|done].
  destruct (setMotion marker _ s5) as [[u6 s6]|e|]; [|done|done].
  by rewrite calculateDelays_agrees by lia.
Qed.

Lemma calculateTimeline_within_capacity_witness :
  markers oneMarkerState !! 0%nat
    = Some (Build_Marker (Build_BouncingOptions 15 52 true 12 52) 1%nat)
  ∧ Bounded.calculateTimeline 31 40 0%nat oneMarkerState
    = calculateTimeline 40 0%nat oneMarkerState.
Proof.
  split; [reflexivity|].
  apply (calculateTimeline_within_capacity 31 40 0%nat oneMarkerState
           (Build_Marker (Build_BouncingOptions 15 52 true 12 52) 1%nat));
    [reflexivity|simpl; lia|simpl; lia|].
  intros _. simpl. lia.
Defined.

(** X22. With a number for the angle and a [bounceHeight] of -1 or less,
    the two functions of the shadow never return: they call [calculateLine]
    with a length of 0 or less, which pushes until its array is full and
    ends with the [RangeError] of the push on the full array. *)
Theorem shadow_functions_fill_array (Number_toString : Q → string)
    (maxLength fuel : nat) (x y : Q) (bounceHeight : Z) (a : angle) :
  bounceHeight ≤ -1 →
  Bounded.calculateShadowMovePoints maxLength fuel x y bounceHeight (Some a)
  = (if (maxLength <? fuel)%nat then Threw RangeError else OutOfFuel)
  ∧ Bounded.calculateShadowMoveTransforms maxLength Number_toString fuel x y
      bounceHeight (Some a)
    = (if (maxLength <? fuel)%nat then Threw RangeError else OutOfFuel).
Proof.
  intros Hheight.
  unfold Bounded.calculateShadowMovePoints,
    Bounded.calculateShadowMoveTransforms.
  rewrite bounded_calculateLine_fills by lia.
  by destruct (maxLength <? fuel)%nat.
Qed.

Lemma shadow_functions_fill_array_witness :
  -1 ≤ -1
  ∧ Bounded.calculateShadowMovePoints 4 4 10 20 (-1) (Some zeroAngle)
    = OutOfFuel
  ∧ Bounded.calculateShadowMovePoints 4 5 10 20 (-1) (Some zeroAngle)
    = Threw RangeError.
Proof.
  split; [lia|]. split.
  - apply (shadow_functions_fill_array (λ _, EmptyString) 4 4 10 20 (-1)
             zeroAngle). lia.
  - apply (shadow_functions_fill_array (λ _, EmptyString) 4 5 10 20 (-1)
             zeroAngle). lia.
Defined.
